(** * Vpn_1.0: the tunnel engine of [vpn_client_zero_rated.py]

    A shallow embedding of the VPN client: the module-level codec
    ([KEY], [CIPHER], [encrypt], [decrypt]) and the two relay loops that
    [start_vpn] runs in daemon threads ([read_tap], [read_socket]).

    The codec is [cryptography.fernet.Fernet].  That class is not part of
    the repository; it is embedded here after its token format
    (version byte 0x80, 64-bit big-endian timestamp, 128-bit IV,
    AES-128-CBC ciphertext of the PKCS7-padded plaintext, HMAC-SHA256 tag,
    everything wrapped in URL-safe base64), with the AES block function and
    HMAC-SHA256 taken as parameters of a section.  Python's
    [base64.urlsafe_b64encode] / [urlsafe_b64decode] are embedded after
    CPython's [binascii.b2a_base64] and the non-strict [binascii.a2b_base64]
    that they call. *)

From Stdlib Require Import String.
From Stdlib Require Import List NArith Arith Lia Bool.
From Stdlib Require Import Strings.Byte.
Import ListNotations.

Set Implicit Arguments.

(** ** Python values used by the client *)

(** A Python [bytes] object. *)
Definition bytes := list byte.

(** The exceptions that can travel through the client. *)
Inductive exn : Type :=
| InvalidToken                 (* cryptography.fernet.InvalidToken *)
| ValueError
| OverflowError
| binascii_Error
| OSError (errno : N)          (* socket errors *)
| pywintypes_error (code : N). (* win32file errors *)

(** The outcome of a Python call: a value, or a raised exception. *)
Inductive result (A : Type) : Type :=
| Ok (a : A)
| Raise (e : exn).
Arguments Ok {A} a.
Arguments Raise {A} e.

Definition bind {A B} (r : result A) (k : A -> result B) : result B :=
  match r with
  | Ok a => k a
  | Raise e => Raise e
  end.

Declare Scope py_scope.
Delimit Scope py_scope with py.
Notation "x <- r ;; k" := (bind r (fun x => k))
  (at level 61, r at next level, right associativity) : py_scope.
Open Scope py_scope.

(** [try: r except ...: raise e]: every exception of [r] is re-raised as [e]. *)
Definition except_raise {A} (r : result A) (e : exn) : result A :=
  match r with
  | Ok a => Ok a
  | Raise _ => Raise e
  end.

(** ** Byte arithmetic *)

Module PyBytes.

(** An [unsigned char] assignment: the low eight bits of [n]. *)
Definition u8 (n : N) : byte :=
  match Byte.of_N (N.land n 255) with
  | Some b => b
  | None => x00
  end.

Definition xor_byte (a b : byte) : byte :=
  u8 (N.lxor (Byte.to_N a) (Byte.to_N b)).

(** Bytewise XOR of two equally long strings (the shorter one decides). *)
Fixpoint xor_bytes (a b : bytes) : bytes :=
  match a, b with
  | x :: a', y :: b' => xor_byte x y :: xor_bytes a' b'
  | _, _ => []
  end.

(** The slice [data[i:j]] for non-negative [i] and [j]. *)
Definition slice (i j : nat) (data : bytes) : bytes :=
  firstn (j - i) (skipn i data).

(** The slice [data[:-n]]. *)
Definition drop_last (n : nat) (data : bytes) : bytes :=
  firstn (length data - n) data.

(** The slice [data[-n:]] (for [n > 0]). *)
Definition take_last (n : nat) (data : bytes) : bytes :=
  skipn (length data - n) data.

(** [bytes == bytes]. *)
Definition eqb (a b : bytes) : bool :=
  if list_eq_dec Byte.byte_eq_dec a b then true else false.

(** [n.to_bytes(length=len, byteorder="big")] for [n < 256 ^ len]. *)
Fixpoint to_bytes_big (len : nat) (n : N) : bytes :=
  match len with
  | O => []
  | S len' => to_bytes_big len' (N.shiftr n 8) ++ [u8 n]
  end.

(** [int.to_bytes(8, "big")] raises [OverflowError] on an [int] too big. *)
Definition int_to_bytes8 (n : N) : result bytes :=
  if (n <? 2 ^ 64)%N then Ok (to_bytes_big 8 n) else Raise OverflowError.

(** Flip bit [i mod 8] (bit 0 the least significant) of byte [i / 8]. *)
Definition flip_byte (k : N) (b : byte) : byte :=
  u8 (N.lxor (Byte.to_N b) (N.shiftl 1 k)).

Fixpoint flip_bit (i : nat) (data : bytes) : bytes :=
  match data with
  | [] => []
  | b :: rest =>
      if i <? 8 then flip_byte (N.of_nat i) b :: rest
      else b :: flip_bit (i - 8) rest
  end.

(** Every byte, by value. *)
Definition all_bytes : bytes := map (fun n => u8 (N.of_nat n)) (seq 0 256).

(** [data] with the byte at index [k] replaced by [c]. *)
Definition replace_at (k : nat) (c : byte) (data : bytes) : bytes :=
  firstn k data ++ c :: skipn (S k) data.

End PyBytes.
Import PyBytes.

(** ** Base64, after CPython's [binascii] *)

Module Base64.

Definition BASE64_PAD : byte := "="%byte.

Definition table_b2a_base64 : bytes :=
  list_byte_of_string
    "ABCDEFGHIJKLMNOPQRSTUVWXYZabcdefghijklmnopqrstuvwxyz0123456789+/".

(** [table_b2a_base64[i]]. *)
Definition b2a (i : N) : byte := nth (N.to_nat i) table_b2a_base64 BASE64_PAD.

Fixpoint index_of (c : byte) (tbl : bytes) (i : N) : option N :=
  match tbl with
  | [] => None
  | x :: tbl' => if Byte.eqb x c then Some i else index_of c tbl' (N.succ i)
  end.

(** [table_a2b_base64[c]]: the sextet of an alphabet character, [None]
    for every other byte. *)
Definition a2b (c : byte) : option N := index_of c table_b2a_base64 0.

(** [binascii.b2a_base64(bin, newline=False)]: three bytes make four
    characters; one or two trailing bytes are completed with [=]. *)
Fixpoint b2a_base64 (bin : bytes) : bytes :=
  match bin with
  | [] => []
  | [x] =>
      let a := Byte.to_N x in
      [b2a (N.shiftr a 2); b2a (N.shiftl (N.land a 3) 4);
       BASE64_PAD; BASE64_PAD]
  | [x; y] =>
      let a := Byte.to_N x in
      let b := Byte.to_N y in
      [b2a (N.shiftr a 2);
       b2a (N.lor (N.shiftl (N.land a 3) 4) (N.shiftr b 4));
       b2a (N.shiftl (N.land b 15) 2); BASE64_PAD]
  | x :: y :: z :: rest =>
      let a := Byte.to_N x in
      let b := Byte.to_N y in
      let c := Byte.to_N z in
      b2a (N.shiftr a 2)
      :: b2a (N.lor (N.shiftl (N.land a 3) 4) (N.shiftr b 4))
      :: b2a (N.lor (N.shiftl (N.land b 15) 2) (N.shiftr c 6))
      :: b2a (N.land c 63)
      :: b2a_base64 rest
  end.

(** [binascii.a2b_base64(ascii, strict_mode=False)]: the decoder's loop
    with its state ([quad_pos], [leftchar], [pads]) and the bytes
    written so far.  Bytes outside the alphabet are skipped; a pad
    sequence that completes a quad ends the parse; the excess bits of
    the last character of a short quad are not examined. *)
Fixpoint a2b_loop (ascii : bytes) (quad_pos : nat) (leftchar : N)
         (pads : nat) (bin_data : bytes) : result bytes :=
  match ascii with
  | [] => if quad_pos =? 0 then Ok bin_data else Raise binascii_Error
  | this_ch :: ascii' =>
      if Byte.eqb this_ch BASE64_PAD then
        if 2 <=? quad_pos then
          if 4 <=? quad_pos + S pads then Ok bin_data
          else a2b_loop ascii' quad_pos leftchar (S pads) bin_data
        else a2b_loop ascii' quad_pos leftchar pads bin_data
      else
        match a2b this_ch with
        | None => a2b_loop ascii' quad_pos leftchar pads bin_data
        | Some v =>
            match quad_pos with
            | 0 => a2b_loop ascii' 1 v 0 bin_data
            | 1 =>
                a2b_loop ascii' 2 (N.land v 15) 0
                  (bin_data ++ [u8 (N.lor (N.shiftl leftchar 2) (N.shiftr v 4))])
            | 2 =>
                a2b_loop ascii' 3 (N.land v 3) 0
                  (bin_data ++ [u8 (N.lor (N.shiftl leftchar 4) (N.shiftr v 2))])
            | _ =>
                a2b_loop ascii' 0 0 0
                  (bin_data ++ [u8 (N.lor (N.shiftl leftchar 6) v)])
            end
        end
  end.

Definition a2b_base64 (ascii : bytes) : result bytes :=
  a2b_loop ascii 0 0 0 [].

(** [bytes.maketrans(src, dst)] as an association list, and
    [s.translate(table)]. *)
Definition maketrans (src dst : bytes) : list (byte * byte) := combine src dst.

Fixpoint lookup (c : byte) (table : list (byte * byte)) : byte :=
  match table with
  | [] => c
  | (x, y) :: table' => if Byte.eqb c x then y else lookup c table'
  end.

Definition translate (table : list (byte * byte)) (s : bytes) : bytes :=
  map (fun c => lookup c table) s.

Definition _urlsafe_encode_translation := maketrans ["+"; "/"]%byte ["-"; "_"]%byte.
Definition _urlsafe_decode_translation := maketrans ["-"; "_"]%byte ["+"; "/"]%byte.

(** [base64.urlsafe_b64encode(s)]. *)
Definition urlsafe_b64encode (s : bytes) : bytes :=
  translate _urlsafe_encode_translation (b2a_base64 s).

(** [base64.urlsafe_b64decode(s)]. *)
Definition urlsafe_b64decode (s : bytes) : result bytes :=
  a2b_base64 (translate _urlsafe_decode_translation s).

Definition option_N_eqb (a b : option N) : bool :=
  match a, b with
  | Some x, Some y => N.eqb x y
  | None, None => true
  | _, _ => false
  end.

(** Does the text [t] decode to the bytes [bin]? *)
Definition decodes_to (t bin : bytes) : bool :=
  match urlsafe_b64decode t with
  | Ok b => PyBytes.eqb b bin
  | Raise _ => false
  end.

(** A bit of the second character of the encoding of the single byte [x]
    whose flip gives a different text that still decodes to [x]: the
    character carries two bits of [x] and four bits the decoder drops. *)
Definition slack_bit (x : byte) : option nat :=
  let t := urlsafe_b64encode [x] in
  find (fun i => negb (PyBytes.eqb (flip_bit i t) t) && decodes_to (flip_bit i t) [x])
       (seq 8 8).

(** A character that carries six bits: in the alphabet, and not the pad. *)
Definition data_char (c : byte) : bool :=
  negb (Byte.eqb c BASE64_PAD)
  && match a2b c with
     | Some _ => true
     | None => false
     end.

(** The bytes the decoder writes for the sextets [v0 v1 v2 v3] of a quad. *)
Definition quad_byte0 (v0 v1 : N) : byte :=
  u8 (N.lor (N.shiftl v0 2) (N.shiftr v1 4)).
Definition quad_byte1 (v1 v2 : N) : byte :=
  u8 (N.lor (N.shiftl (N.land v1 15) 4) (N.shiftr v2 2)).
Definition quad_byte2 (v2 v3 : N) : byte :=
  u8 (N.lor (N.shiftl (N.land v2 3) 6) v3).

(** The number of pad characters in a text; the encoder writes them at the
    end only. *)
Definition padding (t : bytes) : nat :=
  length (filter (Byte.eqb BASE64_PAD) t).

(** The index, in the encoding of [bin], of the last character before the
    padding, when the encoding is padded: the one character that carries
    bits the decoder drops. *)
Fixpoint slack_index (bin : bytes) : option nat :=
  match bin with
  | [] => None
  | [_] => Some 1
  | [_; _] => Some 2
  | _ :: _ :: _ :: rest => option_map (Nat.add 4) (slack_index rest)
  end.

End Base64.
Import Base64.


(** ** PKCS7 padding to the AES block size
    ([cryptography.hazmat.primitives.padding.PKCS7(128)]) *)

Module PKCS7.

Definition block_size : nat := 16.

(** [padder.update(data) + padder.finalize()]. *)
Definition pad (data : bytes) : bytes :=
  let pad_size := block_size - length data mod block_size in
  data ++ repeat (u8 (N.of_nat pad_size)) pad_size.

(** The padding check on the last block: the pad size lies in 1..16 and the
    last [pad_size] bytes all hold it. *)
Definition check_padding (data : bytes) : bool :=
  let pad_byte := last data x00 in
  let pad_size := Byte.to_nat pad_byte in
  (0 <? pad_size) && (pad_size <=? block_size)
  && forallb (Byte.eqb pad_byte) (take_last pad_size data).

(** [unpadder.update(data) + unpadder.finalize()]: [ValueError] unless the
    data ends in one full, correctly padded block. *)
Definition unpad (data : bytes) : result bytes :=
  if (0 <? length data) && (length data mod block_size =? 0) then
    if check_padding data
    then Ok (drop_last (Byte.to_nat (last data x00)) data)
    else Raise ValueError
  else Raise ValueError.

End PKCS7.

(** ** The Fernet codec *)

(** What one [Fernet.encrypt] call draws from its environment:
    [int(time.time())] and [os.urandom(16)]. *)
Record entropy : Type := { time_time : N; urandom16 : bytes }.

(** A [Fernet] instance. *)
Record Fernet : Type := { _signing_key : bytes; _encryption_key : bytes }.

(** What [os.urandom(16)] and [int(time.time())] deliver: sixteen bytes,
    and a time that fits the token's 64-bit field. *)
Definition entropy_ok (env : entropy) : Prop :=
  (time_time env < 2 ^ 64)%N /\ length (urandom16 env) = 16.

(** What [Fernet.__init__] establishes: two 128-bit keys. *)
Definition Fernet_ok (self : Fernet) : Prop :=
  length (_signing_key self) = 16 /\ length (_encryption_key self) = 16.

Section Codec.

(** AES on one 16-byte block, under a key, and HMAC-SHA256 of a message,
    under a key. *)
Variable aes_encrypt_block : bytes -> bytes -> bytes.
Variable aes_decrypt_block : bytes -> bytes -> bytes.
Variable hmac_sha256 : bytes -> bytes -> bytes.

(** [Cipher(algorithms.AES(key), modes.CBC(iv))]: the key and IV sizes are
    validated when the cipher is built. *)
Definition Cipher (key iv : bytes) : result unit :=
  if (length key =? 16) || (length key =? 24) || (length key =? 32) then
    if length iv =? 16 then Ok tt else Raise ValueError
  else Raise ValueError.

Fixpoint cbc_encrypt_blocks (key prev : bytes) (n : nat) (data : bytes) : bytes :=
  match n with
  | O => []
  | S n' =>
      let c := aes_encrypt_block key (xor_bytes (firstn 16 data) prev) in
      c ++ cbc_encrypt_blocks key c n' (skipn 16 data)
  end.

Fixpoint cbc_decrypt_blocks (key prev : bytes) (n : nat) (data : bytes) : bytes :=
  match n with
  | O => []
  | S n' =>
      let c := firstn 16 data in
      xor_bytes (aes_decrypt_block key c) prev
      ++ cbc_decrypt_blocks key c n' (skipn 16 data)
  end.

(** [encryptor.update(data) + encryptor.finalize()]: [finalize] raises
    [ValueError] when the data is not a whole number of blocks. *)
Definition cbc_encrypt (key iv data : bytes) : result bytes :=
  if length data mod 16 =? 0
  then Ok (cbc_encrypt_blocks key iv (length data / 16) data)
  else Raise ValueError.

Definition cbc_decrypt (key iv data : bytes) : result bytes :=
  if length data mod 16 =? 0
  then Ok (cbc_decrypt_blocks key iv (length data / 16) data)
  else Raise ValueError.

(** [Fernet.generate_key()], from the 32 bytes of [os.urandom(32)]. *)
Definition generate_key (urandom32 : bytes) : bytes :=
  urlsafe_b64encode urandom32.

(** [Fernet(key)]. *)
Definition Fernet_init (key : bytes) : result Fernet :=
  key' <- except_raise (urlsafe_b64decode key) ValueError ;;
  if length key' =? 32
  then Ok {| _signing_key := firstn 16 key'; _encryption_key := skipn 16 key' |}
  else Raise ValueError.

(** [Fernet._encrypt_from_parts(data, current_time, iv)]. *)
Definition _encrypt_from_parts (self : Fernet) (data : bytes)
           (current_time : N) (iv : bytes) : result bytes :=
  let padded_data := PKCS7.pad data in
  _ <- Cipher (_encryption_key self) iv ;;
  ciphertext <- cbc_encrypt (_encryption_key self) iv padded_data ;;
  timestamp <- int_to_bytes8 current_time ;;
  let basic_parts := [x80] ++ timestamp ++ iv ++ ciphertext in
  let hmac := hmac_sha256 (_signing_key self) basic_parts in
  Ok (urlsafe_b64encode (basic_parts ++ hmac)).

(** The bytes of a token before the base64 wrapping:
    version, timestamp, IV, ciphertext. *)
Definition basic_parts (self : Fernet) (env : entropy) (data : bytes) : bytes :=
  [x80] ++ to_bytes_big 8 (time_time env) ++ urandom16 env
  ++ cbc_encrypt_blocks (_encryption_key self) (urandom16 env)
       (length (PKCS7.pad data) / 16) (PKCS7.pad data).

(** The token before base64: the basic parts followed by their HMAC. *)
Definition signed_parts (self : Fernet) (env : entropy) (data : bytes) : bytes :=
  basic_parts self env data
  ++ hmac_sha256 (_signing_key self) (basic_parts self env data).

(** [Fernet.encrypt(data)]. *)
Definition Fernet_encrypt (self : Fernet) (env : entropy) (data : bytes)
  : result bytes :=
  _encrypt_from_parts self data (time_time env) (urandom16 env).

(** [int.from_bytes(b, byteorder="big")]. *)
Definition from_bytes_big (b : bytes) : N :=
  fold_left (fun acc x => (acc * 256 + Byte.to_N x)%N) b 0%N.

(** [Fernet._get_unverified_token_data(token)]. *)
Definition _get_unverified_token_data (token : bytes) : result (N * bytes) :=
  data <- except_raise (urlsafe_b64decode token) InvalidToken ;;
  match data with
  | [] => Raise InvalidToken
  | version :: _ =>
      if negb (Byte.eqb version x80) then Raise InvalidToken
      else if length data <? 9 then Raise InvalidToken
      else Ok (from_bytes_big (slice 1 9 data), data)
  end.

(** [Fernet._verify_signature(data)]: the HMAC of [data[:-32]] must equal
    [data[-32:]]. *)
Definition _verify_signature (self : Fernet) (data : bytes) : result unit :=
  if PyBytes.eqb (hmac_sha256 (_signing_key self) (drop_last 32 data))
                 (take_last 32 data)
  then Ok tt else Raise InvalidToken.

(** [Fernet._decrypt_data(data, timestamp, None)]: no TTL is given, so
    the timestamp is not examined. *)
Definition _decrypt_data (self : Fernet) (data : bytes) (timestamp : N)
  : result bytes :=
  _ <- _verify_signature self data ;;
  let iv := slice 9 25 data in
  let ciphertext := slice 25 (length data - 32) data in
  _ <- Cipher (_encryption_key self) iv ;;
  plaintext_padded <-
    except_raise (cbc_decrypt (_encryption_key self) iv ciphertext) InvalidToken ;;
  except_raise (PKCS7.unpad plaintext_padded) InvalidToken.

(** [Fernet.decrypt(token)] with [ttl=None]. *)
Definition Fernet_decrypt (self : Fernet) (token : bytes) : result bytes :=
  td <- _get_unverified_token_data token ;;
  _decrypt_data self (snd td) (fst td).

(** *** The module-level codec of [vpn_client_zero_rated.py] *)

(** [KEY = Fernet.generate_key()]. *)
Definition KEY (urandom32 : bytes) : bytes := generate_key urandom32.

(** [CIPHER = Fernet(KEY)], as the relay sees it once the module is loaded. *)
Variable CIPHER : Fernet.

(** [def encrypt(data): return CIPHER.encrypt(data)] *)
Definition encrypt (env : entropy) (data : bytes) : result bytes :=
  Fernet_encrypt CIPHER env data.

(** [def decrypt(data): return CIPHER.decrypt(data)] *)
Definition decrypt (data : bytes) : result bytes :=
  Fernet_decrypt CIPHER data.

End Codec.

(** The length of a sealed packet, from the length [n] of the plaintext:
    57 bytes of framing and tag around the padded ciphertext, in base64. *)
Definition sealed_length (n : nat) : nat :=
  4 * ((57 + 16 * (n / 16 + 1) + 2) / 3).

(** ** The relay: [start_vpn] and its two threads *)

Definition address : Type := (string * N)%type.

Definition PROXY_IP : string := "your_proxy_server_ip".
Definition PROXY_PORT : N := 8080.

(** The buffer size of [win32file.ReadFile(tap, 4096)] and of
    [sock.recvfrom(4096)]. *)
Definition bufsize : nat := 4096.

Inductive pump_status : Type := RUNNING | STOPPED.

(** Where the thread that runs [read_tap] stands: inside one of its two
    blocking calls, or ended by an exception that nothing caught. *)
Inductive read_tap_pc : Type :=
| in_ReadFile
| in_sendto (encrypted : bytes)
| read_tap_raised (e : exn).

(** Where the thread that runs [read_socket] stands. *)
Inductive read_socket_pc : Type :=
| in_recvfrom
| in_WriteFile (decrypted : bytes)
| read_socket_raised (e : exn).

(** The thread of [read_tap] with its history: the packets [ReadFile]
    returned (each with what [encrypt] then drew from the clock and
    [os.urandom]) and the arguments of its [sock.sendto] calls. *)
Record read_tap_thread : Type := {
  tap_pc : read_tap_pc;
  tap_packets : list (bytes * entropy);
  sent : list (bytes * address)
}.

(** The thread of [read_socket] with its history: the datagrams
    [recvfrom] returned, and the arguments of its [WriteFile] calls. *)
Record read_socket_thread : Type := {
  sock_pc : read_socket_pc;
  datagrams : list (bytes * address);
  written : list bytes
}.

(** What the operating system answers to the pending call of a thread. *)
Inductive tap_event : Type :=
| ReadFile_returns (r : result (N * bytes)) (env : entropy)
| sendto_returns (r : result N).

Inductive sock_event : Type :=
| recvfrom_returns (r : result (bytes * address))
| WriteFile_returns (r : result N).

Inductive event : Type :=
| to_read_tap (ev : tap_event)
| to_read_socket (ev : sock_event).

Record relay : Type := {
  pump_a : read_tap_thread;
  pump_b : read_socket_thread
}.

Definition status_a (t : read_tap_thread) : pump_status :=
  match tap_pc t with
  | read_tap_raised _ => STOPPED
  | _ => RUNNING
  end.

Definition status_b (t : read_socket_thread) : pump_status :=
  match sock_pc t with
  | read_socket_raised _ => STOPPED
  | _ => RUNNING
  end.

(** The relay with both threads just started: each inside its first
    blocking call, nothing read, sent, received or written yet. *)
Definition started : relay :=
  {| pump_a := {| tap_pc := in_ReadFile; tap_packets := []; sent := [] |};
     pump_b := {| sock_pc := in_recvfrom; datagrams := []; written := [] |} |}.

Section Relay.

Variable aes_encrypt_block : bytes -> bytes -> bytes.
Variable aes_decrypt_block : bytes -> bytes -> bytes.
Variable hmac_sha256 : bytes -> bytes -> bytes.
Variable CIPHER : Fernet.

(** One step of
<<
    def read_tap():
        while True:
            packet = win32file.ReadFile(tap, 4096)[1]
            encrypted = encrypt(packet)
            sock.sendto(encrypted, (PROXY_IP, PROXY_PORT))
>>
    from one blocking call to the next.  [None]: the event is not an
    answer to the pending call (or hands over more than the buffer holds). *)
Definition read_tap (t : read_tap_thread) (ev : tap_event)
  : option read_tap_thread :=
  match tap_pc t, ev with
  | in_ReadFile, ReadFile_returns (Raise e) _ =>
      Some {| tap_pc := read_tap_raised e;
              tap_packets := tap_packets t; sent := sent t |}
  | in_ReadFile, ReadFile_returns (Ok hr_packet) env =>
      let packet := snd hr_packet in
      if length packet <=? bufsize then
        match encrypt aes_encrypt_block hmac_sha256 CIPHER env packet with
        | Raise e =>
            Some {| tap_pc := read_tap_raised e;
                    tap_packets := tap_packets t ++ [(packet, env)];
                    sent := sent t |}
        | Ok encrypted =>
            Some {| tap_pc := in_sendto encrypted;
                    tap_packets := tap_packets t ++ [(packet, env)];
                    sent := sent t ++ [(encrypted, (PROXY_IP, PROXY_PORT))] |}
        end
      else None
  | in_sendto _, sendto_returns (Ok _) =>
      Some {| tap_pc := in_ReadFile;
              tap_packets := tap_packets t; sent := sent t |}
  | in_sendto _, sendto_returns (Raise e) =>
      Some {| tap_pc := read_tap_raised e;
              tap_packets := tap_packets t; sent := sent t |}
  | _, _ => None
  end.

(** One step of
<<
    def read_socket():
        while True:
            data, _ = sock.recvfrom(4096)
            decrypted = decrypt(data)
            win32file.WriteFile(tap, decrypted)
>>
*)
Definition read_socket (t : read_socket_thread) (ev : sock_event)
  : option read_socket_thread :=
  match sock_pc t, ev with
  | in_recvfrom, recvfrom_returns (Raise e) =>
      Some {| sock_pc := read_socket_raised e;
              datagrams := datagrams t; written := written t |}
  | in_recvfrom, recvfrom_returns (Ok data_addr) =>
      let data := fst data_addr in
      if length data <=? bufsize then
        match decrypt aes_decrypt_block hmac_sha256 CIPHER data with
        | Raise e =>
            Some {| sock_pc := read_socket_raised e;
                    datagrams := datagrams t ++ [data_addr];
                    written := written t |}
        | Ok decrypted =>
            Some {| sock_pc := in_WriteFile decrypted;
                    datagrams := datagrams t ++ [data_addr];
                    written := written t ++ [decrypted] |}
        end
      else None
  | in_WriteFile _, WriteFile_returns (Ok _) =>
      Some {| sock_pc := in_recvfrom;
              datagrams := datagrams t; written := written t |}
  | in_WriteFile _, WriteFile_returns (Raise e) =>
      Some {| sock_pc := read_socket_raised e;
              datagrams := datagrams t; written := written t |}
  | _, _ => None
  end.

(** The two threads interleave freely; each event moves the thread it is
    addressed to and leaves the other one alone. *)
Definition step (r : relay) (ev : event) : option relay :=
  match ev with
  | to_read_tap ev' =>
      match read_tap (pump_a r) ev' with
      | Some a => Some {| pump_a := a; pump_b := pump_b r |}
      | None => None
      end
  | to_read_socket ev' =>
      match read_socket (pump_b r) ev' with
      | Some b => Some {| pump_a := pump_a r; pump_b := b |}
      | None => None
      end
  end.

Fixpoint run (r : relay) (evs : list event) : option relay :=
  match evs with
  | [] => Some r
  | ev :: evs' =>
      match step r ev with
      | Some r' => run r' evs'
      | None => None
      end
  end.

(** [start_vpn()]: open the TAP device, bind the UDP socket, start both
    threads.  The two arguments are the outcomes of [CreateFile] and of
    [sock.bind].  [start_vpn] returns as soon as the threads are started;
    the relay below is what the two daemon threads do for as long as the
    process lives. *)
Definition start_vpn (CreateFile bind_ : result unit) : result relay :=
  _ <- CreateFile ;;
  _ <- bind_ ;;
  Ok started.

(** The states the relay can be in: those some run leads to. *)
Definition reachable (r : relay) : Prop :=
  exists evs, run started evs = Some r.

(** What a packet read from the device puts on the wire, and what a
    datagram from the wire puts on the device: the output of the one codec
    call made on it, or nothing when that call raised. *)
Definition sealed_of (c : bytes * entropy) : list (bytes * address) :=
  match encrypt aes_encrypt_block hmac_sha256 CIPHER (snd c) (fst c) with
  | Ok encrypted => [(encrypted, (PROXY_IP, PROXY_PORT))]
  | Raise _ => []
  end.

Definition opened_of (d : bytes * address) : list bytes :=
  match decrypt aes_decrypt_block hmac_sha256 CIPHER (fst d) with
  | Ok decrypted => [decrypted]
  | Raise _ => []
  end.

(** The invariant of the relay: the payloads handed to [sock.sendto] are,
    one for one and in order, the outputs of [encrypt] on the packets read
    from the device; the payloads handed to [WriteFile] are, one for one
    and in order, the outputs of the [decrypt] calls that succeeded on the
    datagrams received. *)
Definition through_codec (r : relay) : Prop :=
  sent (pump_a r) = flat_map sealed_of (tap_packets (pump_a r))
  /\ written (pump_b r) = flat_map opened_of (datagrams (pump_b r)).

End Relay.

(** What can be seen of the relay from outside [read_socket]'s record of
    who sent what: pump A, and where pump B stands and what it wrote. *)
Definition observable (r : relay) : read_tap_thread * read_socket_pc * list bytes :=
  (pump_a r, sock_pc (pump_b r), written (pump_b r)).

(** The same event, had the datagram come from [a]. *)
Definition set_sender (a : address) (ev : event) : event :=
  match ev with
  | to_read_socket (recvfrom_returns (Ok (data, _))) =>
      to_read_socket (recvfrom_returns (Ok (data, a)))
  | _ => ev
  end.

(** ** Stand-ins for the cryptographic primitives

    A block "cipher" that XORs the block with the key, and a "MAC" that
    folds key and message into 32 bytes: enough to run the codec on
    concrete inputs. *)

Definition xor_block_cipher (key block : bytes) : bytes := xor_bytes block key.

Definition fold_mac (key msg : bytes) : bytes :=
  let s := fold_left (fun acc x => (acc * 31 + Byte.to_N x + 7) mod 65521)%N
                     (key ++ msg) 1%N in
  map (fun i => u8 (s * (N.of_nat i + 3) + N.shiftr s 5)) (seq 0 32).

(** *** A sample run *)

Definition demo_packet : bytes := list_byte_of_string "hello".

Definition demo_seed : bytes := map (fun i => u8 (N.of_nat (7 * i + 1))) (seq 0 32).

Definition demo_env : entropy :=
  {| time_time := 1700000000;
     urandom16 := map (fun i => u8 (N.of_nat (13 * i + 5))) (seq 0 16) |}.

Definition demo_cipher : Fernet :=
  {| _signing_key := firstn 16 demo_seed; _encryption_key := skipn 16 demo_seed |}.

(** The sealed form of [demo_packet]. *)
Definition demo_sealed : bytes :=
  urlsafe_b64encode
    (signed_parts xor_block_cipher fold_mac demo_cipher demo_env demo_packet).

Definition demo_addr : address := ("192.0.2.7"%string, 40000%N).

(** A datagram that is no token at all. *)
Definition forged : bytes := list_byte_of_string "forged".

(** One packet goes out, one sealed datagram comes in and is written to
    the device. *)
Definition demo_events : list event :=
  [ to_read_tap (ReadFile_returns (Ok (0%N, demo_packet)) demo_env);
    to_read_socket (recvfrom_returns (Ok (demo_sealed, demo_addr)));
    to_read_tap (sendto_returns (Ok 100%N));
    to_read_socket (WriteFile_returns (Ok 5%N)) ].

Definition demo_relay : relay :=
  match run xor_block_cipher xor_block_cipher fold_mac demo_cipher
            started demo_events with
  | Some r => r
  | None => started
  end.

(** The device is gone when [read_tap] first reads it
    (ERROR_INVALID_HANDLE). *)
Definition device_closed : list event :=
  [ to_read_tap (ReadFile_returns (Raise (pywintypes_error 6)) demo_env) ].

(** A packet is read and sealed, and the peer cannot be reached
    (WSAEHOSTUNREACH). *)
Definition peer_unreachable : list event :=
  [ to_read_tap (ReadFile_returns (Ok (0%N, demo_packet)) demo_env);
    to_read_tap (sendto_returns (Raise (OSError 10065))) ].


(** ** Further notions for the codec and the relay *)

(** A byte the base64 decoder skips: after the URL-safe translation it is
    neither the pad character nor in the alphabet. *)
Definition outside_alphabet (c : byte) : bool :=
  let c' := lookup c _urlsafe_decode_translation in
  negb (Byte.eqb c' BASE64_PAD)
  && match a2b c' with
     | None => true
     | Some _ => false
     end.

(** The 65 characters of URL-safe base64 text. *)
Definition urlsafe_char (c : byte) : bool :=
  existsb (Byte.eqb c)
    (list_byte_of_string
       "ABCDEFGHIJKLMNOPQRSTUVWXYZabcdefghijklmnopqrstuvwxyz0123456789-_=").

(** The same datagram arriving [n] times, each [WriteFile] succeeding. *)
Fixpoint replayed (data : bytes) (addr : address) (n : nat) : list event :=
  match n with
  | O => []
  | S n' =>
      to_read_socket (recvfrom_returns (Ok (data, addr)))
      :: to_read_socket (WriteFile_returns (Ok 0%N))
      :: replayed data addr n'
  end.

(** Line breaks and blanks, as a mail gateway might add them. *)
Definition demo_junk : bytes := ["010"; " "; "013"; "010"]%byte.

(** ** The HTTP forwarder of [zero_rated_proxy.py] *)

Module Proxy.

Definition ZERO_RATED_DOMAIN : string := "free.facebook.com".

(** An exception as far as [do_GET] looks at it: [str(e)]. *)
Record Exception : Type := { str : string }.

(** What [requests.get] returns, as far as [do_GET] reads it. *)
Record Response : Type := {
  status_code : N;
  headers : list (string * string);
  content : bytes
}.

(** The calls [do_GET] makes. *)
Inductive call : Type :=
| requests_get (url : string) (headers : list (string * string))
| send_response (code : N)
| send_header (key value : string)
| end_headers
| wfile_write (data : bytes)
| send_error (code : N) (message : string).

(** A handler computation: it extends the list of calls made so far and
    returns a value or raises. *)
Definition handler (A : Type) : Type :=
  list call -> list call * (A + Exception).

Definition ret {A} (a : A) : handler A := fun made => (made, inl a).

Definition seq_ {A B} (m : handler A) (k : A -> handler B) : handler B :=
  fun made =>
    match m made with
    | (made', inl a) => k a made'
    | (made', inr e) => (made', inr e)
    end.

(** [try: m except Exception as e: h(e)]. *)
Definition try_except {A} (m : handler A) (h : Exception -> handler A)
  : handler A :=
  fun made =>
    match m made with
    | (made', inl a) => (made', inl a)
    | (made', inr e) => h e made'
    end.

Section Handler.

(** The client's request, the outcome of the upstream request, and for
    each later call, by the number of calls made before it, the exception
    it raises, if any. *)
Variable path : string.
Variable self_headers : list (string * string).
Variable upstream : Response + Exception.
Variable raises : nat -> option Exception.

(** A call on the handler: recorded, then answered. *)
Definition perform (c : call) : handler unit :=
  fun made =>
    (made ++ [c],
     match raises (length made) with
     | Some e => inr e
     | None => inl tt
     end).

(** [requests.get(url, headers=...)]. *)
Definition get (url : string) (hdrs : list (string * string))
  : handler Response :=
  fun made => (made ++ [requests_get url hdrs], upstream).

(** [for key, value in items: self.send_header(key, value)]. *)
Fixpoint for_send_header (items : list (string * string)) : handler unit :=
  match items with
  | [] => ret tt
  | (key, value) :: items' =>
      seq_ (perform (send_header key value)) (fun _ => for_send_header items')
  end.

(** Calls made one after the other, up to the first that raises. *)
Fixpoint attempt (calls : list call) : handler unit :=
  match calls with
  | [] => ret tt
  | c :: calls' => seq_ (perform c) (fun _ => attempt calls')
  end.

(** [ZeroRatedProxy.do_GET]:
<<
    try:
        url = f"http://{ZERO_RATED_DOMAIN}{self.path}"
        response = requests.get(url, headers=self.headers)
        self.send_response(response.status_code)
        for key, value in response.headers.items():
            self.send_header(key, value)
        self.end_headers()
        self.wfile.write(response.content)
    except Exception as e:
        self.send_error(500, str(e))
>>
*)
Definition do_GET : handler unit :=
  try_except
    (let url := ("http://" ++ ZERO_RATED_DOMAIN ++ path)%string in
     seq_ (get url self_headers) (fun response =>
     seq_ (perform (send_response (status_code response))) (fun _ =>
     seq_ (for_send_header (headers response)) (fun _ =>
     seq_ (perform end_headers) (fun _ =>
     perform (wfile_write (content response)))))))
    (fun e => perform (send_error 500 (str e))).

End Handler.

(** The calls of a response that is forwarded whole. *)
Definition forwarded (response : Response) : list call :=
  send_response (status_code response)
  :: map (fun kv => send_header (fst kv) (snd kv)) (headers response)
  ++ [end_headers; wfile_write (content response)].

Definition is_send_error (c : call) : bool :=
  match c with
  | send_error _ _ => true
  | _ => false
  end.

Definition is_requests_get (c : call) : bool :=
  match c with
  | requests_get _ _ => true
  | _ => false
  end.

(** A sample upstream answer, a handler on which nothing raises, and one
    whose client has gone away when the headers are flushed. *)
Definition demo_response : Response :=
  {| status_code := 200;
     headers := [("Content-Type", "text/html"); ("Content-Length", "2")]%string;
     content := list_byte_of_string "ok" |}.

Definition nothing_raises (i : nat) : option Exception := None.

Definition broken_pipe (i : nat) : option Exception :=
  if i =? 4 then Some {| str := "[Errno 32] Broken pipe" |} else None.

End Proxy.


(** * Facts *)

(** ** Bytes *)

Module PyBytesFacts.

Lemma u8_to_N (b : byte) : u8 (Byte.to_N b) = b.
Proof. destruct b; reflexivity. Qed.

Lemma in_all_bytes (b : byte) : In b all_bytes.
Proof.
  unfold all_bytes. apply in_map_iff.
  exists (Byte.to_nat b). split.
  - rewrite <- (u8_to_N b) at 2. f_equal. destruct b; reflexivity.
  - apply in_seq. pose proof (Byte.to_nat_bounded b). lia.
Qed.

(** A boolean check that passes on all 256 bytes holds of every byte. *)
Lemma byte_forall (f : byte -> bool) :
  forallb f all_bytes = true -> forall x, f x = true.
Proof.
  intros H x. rewrite forallb_forall in H. apply H, in_all_bytes.
Qed.

Lemma byte_forall2 (f : byte -> byte -> bool) :
  forallb (fun x => forallb (f x) all_bytes) all_bytes = true ->
  forall x y, f x y = true.
Proof.
  intros H x y.
  apply (byte_forall (f x)). revert x. apply byte_forall. exact H.
Qed.

Lemma byte_eqb_refl (b : byte) : Byte.eqb b b = true.
Proof. apply Byte.byte_dec_lb. reflexivity. Qed.

Lemma byte_eqb_eq (a b : byte) : Byte.eqb a b = true <-> a = b.
Proof. split; [apply Byte.byte_dec_bl | apply Byte.byte_dec_lb]. Qed.

Lemma eqb_refl (a : bytes) : PyBytes.eqb a a = true.
Proof. unfold PyBytes.eqb. destruct (list_eq_dec _ a a); congruence. Qed.

Lemma eqb_eq (a b : bytes) : PyBytes.eqb a b = true <-> a = b.
Proof.
  unfold PyBytes.eqb. destruct (list_eq_dec _ a b); split; congruence.
Qed.

Lemma xor_byte_cancel (x y : byte) : xor_byte (xor_byte x y) y = x.
Proof.
  apply byte_eqb_eq. revert x y. apply byte_forall2.
  vm_compute. reflexivity.
Qed.

Lemma xor_bytes_length (a b : bytes) :
  length a = length b -> length (xor_bytes a b) = length a.
Proof.
  revert b. induction a as [|x a IH]; intros [|y b] H; simpl in *; try lia.
  f_equal. apply IH. lia.
Qed.

Lemma xor_bytes_cancel (a b : bytes) :
  length a = length b -> xor_bytes (xor_bytes a b) b = a.
Proof.
  revert b. induction a as [|x a IH]; intros [|y b] H; simpl in *;
    try reflexivity; try discriminate.
  rewrite xor_byte_cancel. f_equal. apply IH. lia.
Qed.

Lemma to_bytes_big_length (len : nat) (n : N) : length (to_bytes_big len n) = len.
Proof.
  revert n. induction len as [|len IH]; intros n; simpl; [reflexivity|].
  rewrite length_app, IH. simpl. lia.
Qed.

Lemma firstn_exact_app (n : nat) (a b : bytes) :
  length a = n -> firstn n (a ++ b) = a.
Proof.
  intros <-. rewrite firstn_app, firstn_all, Nat.sub_diag, firstn_O.
  apply app_nil_r.
Qed.

Lemma skipn_exact_app (n : nat) (a b : bytes) :
  length a = n -> skipn n (a ++ b) = b.
Proof.
  intros <-. rewrite skipn_app, skipn_all, Nat.sub_diag, skipn_O.
  reflexivity.
Qed.

Lemma drop_last_app (n : nat) (a b : bytes) :
  length b = n -> drop_last n (a ++ b) = a.
Proof.
  intros H. unfold drop_last. rewrite length_app, H.
  replace (length a + n - n) with (length a + 0) by lia.
  rewrite firstn_app_2. simpl. apply app_nil_r.
Qed.

Lemma take_last_app (n : nat) (a b : bytes) :
  length b = n -> take_last n (a ++ b) = b.
Proof.
  intros H. unfold take_last. rewrite length_app, H.
  replace (length a + n - n) with (length a + 0) by lia.
  rewrite skipn_app, Nat.add_0_r, skipn_all.
  replace (length a - length a) with 0 by lia. reflexivity.
Qed.

Lemma flip_bit_length (i : nat) (data : bytes) :
  length (flip_bit i data) = length data.
Proof.
  revert i. induction data as [|b data IH]; intros i; simpl; [reflexivity|].
  destruct (i <? 8); simpl; [reflexivity | now rewrite IH].
Qed.

Lemma flip_bit_app (a b : bytes) (k : nat) :
  flip_bit (8 * length a + k) (a ++ b) = a ++ flip_bit k b.
Proof.
  induction a as [|x a IH]; simpl length.
  - reflexivity.
  - cbn [app flip_bit].
    replace (8 * S (length a) + k <? 8) with false
      by (symmetry; apply Nat.ltb_ge; lia).
    f_equal.
    replace (8 * S (length a) + k - 8) with (8 * length a + k) by lia.
    exact IH.
Qed.

End PyBytesFacts.
Import PyBytesFacts.

(** ** Base64 *)

Module Base64Facts.

(** Induction over a byte string three bytes at a time, as the encoder
    reads it. *)
Lemma list_ind3 (P : bytes -> Prop) :
  P [] -> (forall x, P [x]) -> (forall x y, P [x; y]) ->
  (forall x y z l, P l -> P (x :: y :: z :: l)) ->
  forall l, P l.
Proof.
  intros H0 H1 H2 H3. fix IH 1.
  intros [|x [|y [|z l]]];
    [ exact H0 | exact (H1 x) | exact (H2 x y) | exact (H3 x y z l (IH l)) ].
Qed.

Lemma sextet_forall (f : N -> bool) :
  forallb f (map N.of_nat (seq 0 64)) = true ->
  forall s, (s < 64)%N -> f s = true.
Proof.
  intros H s Hs. rewrite forallb_forall in H. apply H.
  apply in_map_iff. exists (N.to_nat s). split; [apply N2Nat.id|].
  apply in_seq. lia.
Qed.

Lemma option_N_eqb_eq a b : option_N_eqb a b = true -> a = b.
Proof.
  destruct a, b; simpl; try discriminate; auto.
  intros H. apply N.eqb_eq in H. congruence.
Qed.

Lemma a2b_b2a (s : N) : (s < 64)%N -> a2b (b2a s) = Some s.
Proof.
  intros Hs. apply option_N_eqb_eq. revert s Hs.
  apply sextet_forall. vm_compute. reflexivity.
Qed.

Lemma b2a_not_pad (s : N) : (s < 64)%N -> Byte.eqb (b2a s) BASE64_PAD = false.
Proof.
  intros Hs. apply negb_true_iff. revert s Hs.
  apply sextet_forall. vm_compute. reflexivity.
Qed.

Lemma b2a_large (s : N) : (64 <= s)%N -> b2a s = BASE64_PAD.
Proof.
  intros Hs. unfold b2a. apply nth_overflow.
  change (length table_b2a_base64) with 64. lia.
Qed.

(** The URL-safe translation is undone by its inverse on everything the
    encoder writes. *)
Lemma b2a_translate (s : N) :
  lookup (lookup (b2a s) _urlsafe_encode_translation) _urlsafe_decode_translation
  = b2a s.
Proof.
  destruct (N.lt_ge_cases s 64) as [Hs|Hs].
  - apply byte_eqb_eq. revert s Hs. apply sextet_forall.
    vm_compute. reflexivity.
  - rewrite (b2a_large Hs). reflexivity.
Qed.

Lemma translate_b2a_base64 (bin : bytes) :
  translate _urlsafe_decode_translation (urlsafe_b64encode bin) = b2a_base64 bin.
Proof.
  unfold urlsafe_b64encode, translate. rewrite map_map.
  induction bin as [| x | x y | x y z l IH] using list_ind3;
    cbn [b2a_base64 map]; rewrite ?b2a_translate; try reflexivity.
  now rewrite IH.
Qed.

Lemma b2a_base64_length (bin : bytes) :
  length (b2a_base64 bin) = 4 * ((length bin + 2) / 3).
Proof.
  induction bin as [| x | x y | x y z l IH] using list_ind3;
    try reflexivity.
  cbn [b2a_base64 length]. rewrite IH.
  replace (S (S (S (length l))) + 2) with (1 * 3 + (length l + 2)) by lia.
  rewrite Nat.div_add_l by lia. lia.
Qed.

(** [len(base64.urlsafe_b64encode(s)) == 4 * ceil(len(s) / 3)]. *)
Lemma urlsafe_b64encode_length (bin : bytes) :
  length (urlsafe_b64encode bin) = 4 * ((length bin + 2) / 3).
Proof.
  unfold urlsafe_b64encode, translate.
  rewrite length_map. apply b2a_base64_length.
Qed.

(** *** The sextets the encoder writes are in range *)

Ltac by_bytes :=
  first [ apply byte_forall2 | apply byte_forall ]; vm_compute; reflexivity.

Lemma sextet0_lt x : (N.shiftr (Byte.to_N x) 2 < 64)%N.
Proof. apply N.ltb_lt. revert x. by_bytes. Qed.

Lemma sextet1_lt x y :
  (N.lor (N.shiftl (N.land (Byte.to_N x) 3) 4) (N.shiftr (Byte.to_N y) 4) < 64)%N.
Proof. apply N.ltb_lt. revert x y. by_bytes. Qed.

Lemma sextet2_lt y z :
  (N.lor (N.shiftl (N.land (Byte.to_N y) 15) 2) (N.shiftr (Byte.to_N z) 6) < 64)%N.
Proof. apply N.ltb_lt. revert y z. by_bytes. Qed.

Lemma sextet3_lt z : (N.land (Byte.to_N z) 63 < 64)%N.
Proof. apply N.ltb_lt. revert z. by_bytes. Qed.

Lemma tail1_lt x : (N.shiftl (N.land (Byte.to_N x) 3) 4 < 64)%N.
Proof. apply N.ltb_lt. revert x. by_bytes. Qed.

Lemma tail2_lt y : (N.shiftl (N.land (Byte.to_N y) 15) 2 < 64)%N.
Proof. apply N.ltb_lt. revert y. by_bytes. Qed.

(** *** What the decoder rebuilds from them *)

Lemma byte0_of_sextets x y :
  u8 (N.lor (N.shiftl (N.shiftr (Byte.to_N x) 2) 2)
            (N.shiftr (N.lor (N.shiftl (N.land (Byte.to_N x) 3) 4)
                             (N.shiftr (Byte.to_N y) 4)) 4)) = x.
Proof. apply byte_eqb_eq. revert x y. by_bytes. Qed.

Lemma left1_of_sextets x y :
  N.land (N.lor (N.shiftl (N.land (Byte.to_N x) 3) 4) (N.shiftr (Byte.to_N y) 4)) 15
  = N.shiftr (Byte.to_N y) 4.
Proof. apply N.eqb_eq. revert x y. by_bytes. Qed.

Lemma byte1_of_sextets y z :
  u8 (N.lor (N.shiftl (N.shiftr (Byte.to_N y) 4) 4)
            (N.shiftr (N.lor (N.shiftl (N.land (Byte.to_N y) 15) 2)
                             (N.shiftr (Byte.to_N z) 6)) 2)) = y.
Proof. apply byte_eqb_eq. revert y z. by_bytes. Qed.

Lemma left2_of_sextets y z :
  N.land (N.lor (N.shiftl (N.land (Byte.to_N y) 15) 2) (N.shiftr (Byte.to_N z) 6)) 3
  = N.shiftr (Byte.to_N z) 6.
Proof. apply N.eqb_eq. revert y z. by_bytes. Qed.

Lemma byte2_of_sextets z :
  u8 (N.lor (N.shiftl (N.shiftr (Byte.to_N z) 6) 6) (N.land (Byte.to_N z) 63)) = z.
Proof. apply byte_eqb_eq. revert z. by_bytes. Qed.

Lemma byte0_of_tail x :
  u8 (N.lor (N.shiftl (N.shiftr (Byte.to_N x) 2) 2)
            (N.shiftr (N.shiftl (N.land (Byte.to_N x) 3) 4) 4)) = x.
Proof. apply byte_eqb_eq. revert x. by_bytes. Qed.

Lemma byte1_of_tail y :
  u8 (N.lor (N.shiftl (N.shiftr (Byte.to_N y) 4) 4)
            (N.shiftr (N.shiftl (N.land (Byte.to_N y) 15) 2) 2)) = y.
Proof. apply byte_eqb_eq. revert y. by_bytes. Qed.

(** One alphabet character moves the decoder one position on. *)
Lemma a2b_loop_char (s : N) (rest : bytes) (quad_pos : nat) (leftchar : N)
      (pads : nat) (out : bytes) :
  (s < 64)%N ->
  a2b_loop (b2a s :: rest) quad_pos leftchar pads out =
  match quad_pos with
  | 0 => a2b_loop rest 1 s 0 out
  | 1 => a2b_loop rest 2 (N.land s 15) 0
           (out ++ [u8 (N.lor (N.shiftl leftchar 2) (N.shiftr s 4))])
  | 2 => a2b_loop rest 3 (N.land s 3) 0
           (out ++ [u8 (N.lor (N.shiftl leftchar 4) (N.shiftr s 2))])
  | _ => a2b_loop rest 0 0 0 (out ++ [u8 (N.lor (N.shiftl leftchar 6) s)])
  end.
Proof.
  intros Hs. cbn [a2b_loop].
  rewrite (b2a_not_pad Hs), (a2b_b2a Hs). reflexivity.
Qed.

(** Four characters give back the three bytes they were made from. *)
Lemma a2b_loop_quad (x y z : byte) (rest out : bytes) :
  a2b_loop (b2a_base64 [x; y; z] ++ rest) 0 0 0 out =
  a2b_loop rest 0 0 0 (out ++ [x; y; z]).
Proof.
  cbn [b2a_base64 app].
  rewrite (a2b_loop_char _ _ _ _ _ (sextet0_lt x)).
  rewrite (a2b_loop_char _ _ _ _ _ (sextet1_lt x y)).
  rewrite (a2b_loop_char _ _ _ _ _ (sextet2_lt y z)).
  rewrite (a2b_loop_char _ _ _ _ _ (sextet3_lt z)).
  rewrite byte0_of_sextets, left1_of_sextets, byte1_of_sextets,
    left2_of_sextets, byte2_of_sextets.
  rewrite <- !app_assoc. reflexivity.
Qed.

(** A [x=]-padded tail of one byte. *)
Lemma a2b_loop_tail1 (x : byte) (rest out : bytes) :
  a2b_loop (b2a_base64 [x] ++ rest) 0 0 0 out = Ok (out ++ [x]).
Proof.
  cbn [b2a_base64 app].
  rewrite (a2b_loop_char _ _ _ _ _ (sextet0_lt x)).
  rewrite (a2b_loop_char _ _ _ _ _ (tail1_lt x)).
  rewrite byte0_of_tail. reflexivity.
Qed.

Lemma a2b_loop_tail2 (x y : byte) (rest out : bytes) :
  a2b_loop (b2a_base64 [x; y] ++ rest) 0 0 0 out = Ok (out ++ [x; y]).
Proof.
  cbn [b2a_base64 app].
  rewrite (a2b_loop_char _ _ _ _ _ (sextet0_lt x)).
  rewrite (a2b_loop_char _ _ _ _ _ (sextet1_lt x y)).
  rewrite (a2b_loop_char _ _ _ _ _ (tail2_lt y)).
  rewrite byte0_of_sextets, left1_of_sextets, byte1_of_tail.
  rewrite <- !app_assoc. reflexivity.
Qed.

Lemma a2b_loop_b2a_base64 (bin out : bytes) :
  a2b_loop (b2a_base64 bin) 0 0 0 out = Ok (out ++ bin).
Proof.
  revert out.
  induction bin as [| x | x y | x y z l IH] using list_ind3; intros out.
  - simpl. now rewrite app_nil_r.
  - rewrite <- (app_nil_r (b2a_base64 [x])). apply a2b_loop_tail1.
  - rewrite <- (app_nil_r (b2a_base64 [x; y])). apply a2b_loop_tail2.
  - change (b2a_base64 (x :: y :: z :: l))
      with (b2a_base64 [x; y; z] ++ b2a_base64 l).
    rewrite a2b_loop_quad, IH, <- app_assoc. reflexivity.
Qed.

(** [base64.urlsafe_b64decode(base64.urlsafe_b64encode(s)) == s]. *)
Lemma urlsafe_b64decode_encode (bin : bytes) :
  urlsafe_b64decode (urlsafe_b64encode bin) = Ok bin.
Proof.
  unfold urlsafe_b64decode, a2b_base64.
  rewrite translate_b2a_base64. apply a2b_loop_b2a_base64.
Qed.

(** *** Texts the decoder accepts besides the encoder's own *)

(** The bytes written so far only ever grow at the end. *)
Lemma a2b_loop_out (ascii : bytes) (quad_pos : nat) (leftchar : N)
      (pads : nat) (out : bytes) :
  a2b_loop ascii quad_pos leftchar pads out =
  (r <- a2b_loop ascii quad_pos leftchar pads [] ;; Ok (out ++ r)).
Proof.
  revert quad_pos leftchar pads out.
  induction ascii as [|c ascii IH]; intros quad_pos leftchar pads out.
  - cbn [a2b_loop]. destruct (quad_pos =? 0); cbn [bind];
      [now rewrite app_nil_r | reflexivity].
  - cbn [a2b_loop].
    destruct (Byte.eqb c BASE64_PAD).
    + destruct (2 <=? quad_pos); [|apply IH].
      destruct (4 <=? quad_pos + S pads); [|apply IH].
      cbn [bind]. now rewrite app_nil_r.
    + destruct (a2b c) as [v|]; [|apply IH].
      destruct quad_pos as [|[|[|q]]]; [apply IH | | | ];
        cbn [app]; rewrite IH; rewrite (IH _ _ _ [_]);
        destruct (a2b_loop ascii _ _ _ []); cbn [bind];
        rewrite <- ?app_assoc; reflexivity.
Qed.

Lemma mod3_SSS (n : nat) : S (S (S n)) mod 3 = n mod 3.
Proof.
  replace (S (S (S n))) with (n + 1 * 3) by lia. apply Nat.Div0.mod_add.
Qed.

(** Whole quads are decoded before anything that follows them. *)
Lemma a2b_loop_b2a_base64_app (pre rest out : bytes) :
  length pre mod 3 = 0 ->
  a2b_loop (b2a_base64 pre ++ rest) 0 0 0 out = a2b_loop rest 0 0 0 (out ++ pre).
Proof.
  revert out.
  induction pre as [| x | x y | x y z l IH] using list_ind3; intros out H.
  - simpl. now rewrite app_nil_r.
  - discriminate.
  - discriminate.
  - change (b2a_base64 (x :: y :: z :: l))
      with (b2a_base64 [x; y; z] ++ b2a_base64 l).
    cbn [length] in H. rewrite mod3_SSS in H.
    rewrite <- (app_assoc (b2a_base64 [x; y; z])), a2b_loop_quad, IH by exact H.
    rewrite <- app_assoc. reflexivity.
Qed.

Lemma b2a_base64_app (pre rest : bytes) :
  length pre mod 3 = 0 ->
  b2a_base64 (pre ++ rest) = b2a_base64 pre ++ b2a_base64 rest.
Proof.
  induction pre as [| x | x y | x y z l IH] using list_ind3; intros H.
  - reflexivity.
  - discriminate.
  - discriminate.
  - cbn [length] in H. rewrite mod3_SSS in H.
    cbn [app b2a_base64]. now rewrite IH.
Qed.

Lemma urlsafe_b64encode_app (pre rest : bytes) :
  length pre mod 3 = 0 ->
  urlsafe_b64encode (pre ++ rest) = urlsafe_b64encode pre ++ urlsafe_b64encode rest.
Proof.
  intros H. unfold urlsafe_b64encode, translate.
  now rewrite b2a_base64_app, map_app.
Qed.

(** Text that follows whole quads is decoded on its own. *)
Lemma urlsafe_b64decode_app (pre t : bytes) :
  length pre mod 3 = 0 ->
  urlsafe_b64decode (urlsafe_b64encode pre ++ t) =
  (r <- urlsafe_b64decode t ;; Ok (pre ++ r)).
Proof.
  intros H. unfold urlsafe_b64decode, a2b_base64.
  unfold translate at 1. rewrite map_app.
  change (map (fun c => lookup c _urlsafe_decode_translation) (urlsafe_b64encode pre))
    with (translate _urlsafe_decode_translation (urlsafe_b64encode pre)).
  rewrite translate_b2a_base64, a2b_loop_b2a_base64_app by exact H.
  rewrite a2b_loop_out. reflexivity.
Qed.

Lemma slack_bit_found (x : byte) :
  exists i, slack_bit x = Some i.
Proof.
  assert (H : (match slack_bit x with Some _ => true | None => false end) = true).
  { revert x. apply byte_forall. vm_compute. reflexivity. }
  destruct (slack_bit x) as [i|]; [now exists i | discriminate].
Qed.

Lemma slack_bit_spec (x : byte) (i : nat) :
  slack_bit x = Some i ->
  8 <= i < 16
  /\ flip_bit i (urlsafe_b64encode [x]) <> urlsafe_b64encode [x]
  /\ urlsafe_b64decode (flip_bit i (urlsafe_b64encode [x])) = Ok [x].
Proof.
  unfold slack_bit. intros H. apply find_some in H. destruct H as [Hin H].
  apply in_seq in Hin. apply andb_true_iff in H. destruct H as [Hne Hdec].
  split; [lia|]. split.
  - intros E. rewrite E, eqb_refl in Hne. discriminate.
  - unfold decodes_to in Hdec.
    destruct (urlsafe_b64decode _) as [b|]; [|discriminate].
    apply eqb_eq in Hdec. now subst.
Qed.

(** A token whose length leaves one byte over after whole triples has a
    bit in its last character before the padding that can be flipped
    without changing what the text decodes to. *)
Lemma urlsafe_b64_malleable (bin : bytes) :
  length bin mod 3 = 1 ->
  exists i,
    i < 8 * length (urlsafe_b64encode bin)
    /\ flip_bit i (urlsafe_b64encode bin) <> urlsafe_b64encode bin
    /\ urlsafe_b64decode (flip_bit i (urlsafe_b64encode bin)) = Ok bin.
Proof.
  intros H.
  assert (Hne : bin <> []) by (intros ->; discriminate).
  destruct (exists_last Hne) as (pre & x & ->).
  rewrite length_app in H. cbn [length] in H.
  assert (Hpre : length pre mod 3 = 0).
  { pose proof (Nat.div_mod_eq (length pre) 3).
    pose proof (Nat.mod_upper_bound (length pre) 3).
    pose proof (Nat.div_mod_eq (length pre + 1) 3).
    pose proof (Nat.mod_upper_bound (length pre + 1) 3). lia. }
  destruct (slack_bit_found x) as [i Hi].
  destruct (slack_bit_spec _ Hi) as (Hr & Hneq & Hdec).
  exists (8 * length (urlsafe_b64encode pre) + i).
  rewrite urlsafe_b64encode_app by exact Hpre.
  rewrite flip_bit_app. split; [|split].
  - rewrite length_app, (urlsafe_b64encode_length [x]). cbn [length]. simpl Nat.div. lia.
  - intros E. apply app_inv_head in E. contradiction.
  - rewrite urlsafe_b64decode_app, Hdec by exact Hpre. reflexivity.
Qed.

(** *** One changed character *)

(** A single-bit flip replaces one character of the text. *)
Lemma flip_bit_replace_at (data : bytes) (i : nat) :
  i < 8 * length data ->
  flip_bit i data
  = replace_at (i / 8) (flip_byte (N.of_nat (i mod 8)) (nth (i / 8) data "000"%byte))
      data.
Proof.
  revert i. induction data as [|c data IH]; intros i Hi; [simpl in Hi; lia|].
  cbn [flip_bit length] in *.
  destruct (i <? 8) eqn:E.
  - apply Nat.ltb_lt in E.
    rewrite Nat.div_small, Nat.mod_small by exact E. reflexivity.
  - apply Nat.ltb_ge in E.
    replace i with ((i - 8) + 1 * 8) at 2 3 4 by lia.
    rewrite Nat.div_add, Nat.Div0.mod_add by lia.
    rewrite Nat.add_1_r. unfold replace_at. cbn [firstn skipn nth app].
    f_equal. rewrite IH by lia. reflexivity.
Qed.

Lemma replace_at_map (f : byte -> byte) (k : nat) (c : byte) (l : bytes) :
  map f (replace_at k c l) = replace_at k (f c) (map f l).
Proof.
  unfold replace_at.
  now rewrite map_app, firstn_map, skipn_map.
Qed.

Lemma replace_at_split (k : nat) (l : bytes) (d : byte) :
  k < length l -> l = replace_at k (nth k l d) l.
Proof.
  revert k. induction l as [|c l IH]; intros k Hk; [simpl in Hk; lia|].
  destruct k as [|k]; [reflexivity|].
  cbn [length] in Hk. unfold replace_at. cbn [firstn skipn nth app].
  f_equal. apply IH. lia.
Qed.

(** The characters the encoder writes. *)
Lemma data_char_b2a (s : N) : (s < 64)%N -> data_char (b2a s) = true.
Proof.
  intros Hs. unfold data_char. now rewrite (b2a_not_pad Hs), (a2b_b2a Hs).
Qed.

Lemma data_char_inv (c : byte) :
  data_char c = true -> exists v, (v < 64)%N /\ c = b2a v.
Proof.
  intros H.
  assert (E : (match a2b c with
               | Some v => (v <? 64)%N && Byte.eqb (b2a v) c
               | None => negb (data_char c)
               end) = true).
  { revert c H. intros c _. revert c. apply byte_forall. vm_compute. reflexivity. }
  unfold data_char in H, E.
  destruct (a2b c) as [v|].
  - apply andb_true_iff in E. destruct E as [E1 E2].
    exists v. split; [now apply N.ltb_lt|].
    symmetry. now apply byte_eqb_eq.
  - rewrite andb_false_r in H. discriminate.
Qed.

Lemma not_data_char (c : byte) :
  c <> BASE64_PAD -> data_char c = false ->
  Byte.eqb c BASE64_PAD = false /\ a2b c = None.
Proof.
  intros Hp H. unfold data_char in H.
  assert (E : Byte.eqb c BASE64_PAD = false).
  { destruct (Byte.eqb c BASE64_PAD) eqn:E; [|reflexivity].
    apply byte_eqb_eq in E. contradiction. }
  split; [exact E|].
  rewrite E in H. destruct (a2b c); [discriminate | reflexivity].
Qed.

Lemma a2b_loop_pad (rest : bytes) (quad_pos : nat) (leftchar : N)
      (pads : nat) (out : bytes) :
  a2b_loop (BASE64_PAD :: rest) quad_pos leftchar pads out =
  if 2 <=? quad_pos then
    if 4 <=? quad_pos + S pads then Ok out
    else a2b_loop rest quad_pos leftchar (S pads) out
  else a2b_loop rest quad_pos leftchar pads out.
Proof. reflexivity. Qed.

Lemma a2b_loop_other (c : byte) (rest : bytes) (quad_pos : nat) (leftchar : N)
      (pads : nat) (out : bytes) :
  c <> BASE64_PAD -> data_char c = false ->
  a2b_loop (c :: rest) quad_pos leftchar pads out
  = a2b_loop rest quad_pos leftchar pads out.
Proof.
  intros Hp H. destruct (not_data_char Hp H) as [E1 E2].
  cbn [a2b_loop]. now rewrite E1, E2.
Qed.

(** What the decoder writes for four, three and two data characters. *)
Lemma a2b_loop_four (v0 v1 v2 v3 : N) (rest out : bytes) :
  (v0 < 64)%N -> (v1 < 64)%N -> (v2 < 64)%N -> (v3 < 64)%N ->
  a2b_loop (b2a v0 :: b2a v1 :: b2a v2 :: b2a v3 :: rest) 0 0 0 out
  = a2b_loop rest 0 0 0
      (out ++ [quad_byte0 v0 v1; quad_byte1 v1 v2; quad_byte2 v2 v3]).
Proof.
  intros H0 H1 H2 H3.
  rewrite (a2b_loop_char _ _ _ _ _ H0), (a2b_loop_char _ _ _ _ _ H1),
    (a2b_loop_char _ _ _ _ _ H2), (a2b_loop_char _ _ _ _ _ H3).
  rewrite <- !app_assoc. reflexivity.
Qed.

Lemma a2b_loop_three (v0 v1 v2 : N) (rest out : bytes) :
  (v0 < 64)%N -> (v1 < 64)%N -> (v2 < 64)%N ->
  a2b_loop (b2a v0 :: b2a v1 :: b2a v2 :: rest) 0 0 0 out
  = a2b_loop rest 3 (N.land v2 3) 0 (out ++ [quad_byte0 v0 v1; quad_byte1 v1 v2]).
Proof.
  intros H0 H1 H2.
  rewrite (a2b_loop_char _ _ _ _ _ H0), (a2b_loop_char _ _ _ _ _ H1),
    (a2b_loop_char _ _ _ _ _ H2).
  rewrite <- !app_assoc. reflexivity.
Qed.

Lemma a2b_loop_two (v0 v1 : N) (rest out : bytes) :
  (v0 < 64)%N -> (v1 < 64)%N ->
  a2b_loop (b2a v0 :: b2a v1 :: rest) 0 0 0 out
  = a2b_loop rest 2 (N.land v1 15) 0 (out ++ [quad_byte0 v0 v1]).
Proof.
  intros H0 H1.
  rewrite (a2b_loop_char _ _ _ _ _ H0), (a2b_loop_char _ _ _ _ _ H1).
  reflexivity.
Qed.

Lemma sextet_forall2 (f : N -> N -> bool) :
  forallb (fun a => forallb (f a) (map N.of_nat (seq 0 64)))
          (map N.of_nat (seq 0 64)) = true ->
  forall a b, (a < 64)%N -> (b < 64)%N -> f a b = true.
Proof.
  intros H a b Ha Hb.
  apply (sextet_forall (f a)); [|exact Hb].
  now apply (sextet_forall (fun a => forallb (f a) (map N.of_nat (seq 0 64)))).
Qed.

Lemma sextet_forall3 (f : N -> N -> N -> bool) :
  forallb (fun a =>
             forallb (fun b => forallb (f a b) (map N.of_nat (seq 0 64)))
                     (map N.of_nat (seq 0 64)))
          (map N.of_nat (seq 0 64)) = true ->
  forall a b c, (a < 64)%N -> (b < 64)%N -> (c < 64)%N -> f a b c = true.
Proof.
  intros H a b c Ha Hb Hc.
  apply (sextet_forall2 (f a)); [|exact Hb|exact Hc].
  now apply (sextet_forall
               (fun a => forallb (fun b => forallb (f a b) (map N.of_nat (seq 0 64)))
                                 (map N.of_nat (seq 0 64)))).
Qed.

(** The encoder's sextets of the bytes the decoder wrote are the sextets
    the decoder read: a data character that is wholly used can be read
    back from the bytes. *)
Lemma sextet0_of_bytes (v0 v1 : N) :
  (v0 < 64)%N -> (v1 < 64)%N ->
  N.shiftr (Byte.to_N (quad_byte0 v0 v1)) 2 = v0.
Proof.
  intros H0 H1. apply N.eqb_eq. revert v0 v1 H0 H1.
  apply sextet_forall2. vm_compute. reflexivity.
Qed.

Lemma sextet1_of_bytes (v0 v1 v2 : N) :
  (v0 < 64)%N -> (v1 < 64)%N -> (v2 < 64)%N ->
  N.lor (N.shiftl (N.land (Byte.to_N (quad_byte0 v0 v1)) 3) 4)
        (N.shiftr (Byte.to_N (quad_byte1 v1 v2)) 4) = v1.
Proof.
  intros H0 H1 H2. apply N.eqb_eq. revert v0 v1 v2 H0 H1 H2.
  apply sextet_forall3. vm_compute. reflexivity.
Qed.

Lemma sextet2_of_bytes (v1 v2 v3 : N) :
  (v1 < 64)%N -> (v2 < 64)%N -> (v3 < 64)%N ->
  N.lor (N.shiftl (N.land (Byte.to_N (quad_byte1 v1 v2)) 15) 2)
        (N.shiftr (Byte.to_N (quad_byte2 v2 v3)) 6) = v2.
Proof.
  intros H1 H2 H3. apply N.eqb_eq. revert v1 v2 v3 H1 H2 H3.
  apply sextet_forall3. vm_compute. reflexivity.
Qed.

Lemma sextet3_of_bytes (v2 v3 : N) :
  (v2 < 64)%N -> (v3 < 64)%N ->
  N.land (Byte.to_N (quad_byte2 v2 v3)) 63 = v3.
Proof.
  intros H2 H3. apply N.eqb_eq. revert v2 v3 H2 H3.
  apply sextet_forall2. vm_compute. reflexivity.
Qed.

Lemma b2a_base64_four (v0 v1 v2 v3 : N) :
  (v0 < 64)%N -> (v1 < 64)%N -> (v2 < 64)%N -> (v3 < 64)%N ->
  b2a_base64 [quad_byte0 v0 v1; quad_byte1 v1 v2; quad_byte2 v2 v3]
  = [b2a v0; b2a v1; b2a v2; b2a v3].
Proof.
  intros H0 H1 H2 H3. cbn [b2a_base64].
  now rewrite sextet0_of_bytes, sextet1_of_bytes, sextet2_of_bytes,
    sextet3_of_bytes.
Qed.

Lemma b2a_base64_three (v0 v1 v2 : N) :
  (v0 < 64)%N -> (v1 < 64)%N -> (v2 < 64)%N ->
  exists c2,
    b2a_base64 [quad_byte0 v0 v1; quad_byte1 v1 v2]
    = [b2a v0; b2a v1; c2; BASE64_PAD].
Proof.
  intros H0 H1 H2. cbn [b2a_base64].
  rewrite sextet0_of_bytes, sextet1_of_bytes by assumption.
  eexists. reflexivity.
Qed.

Lemma b2a_base64_two (v0 v1 : N) :
  (v0 < 64)%N -> (v1 < 64)%N ->
  exists c1,
    b2a_base64 [quad_byte0 v0 v1] = [b2a v0; c1; BASE64_PAD; BASE64_PAD].
Proof.
  intros H0 H1. cbn [b2a_base64].
  rewrite sextet0_of_bytes by assumption.
  eexists. reflexivity.
Qed.

(** The decoder writes at most three bytes for four data characters read;
    pads and skipped bytes give nothing. *)
Lemma a2b_loop_data_chars (ascii : bytes) (quad_pos : nat) (leftchar : N)
      (pads : nat) (out r : bytes) :
  a2b_loop ascii quad_pos leftchar pads out = Ok r ->
  4 * length r
  <= 4 * length out + 3 * length (filter data_char ascii)
     + match quad_pos with
       | 0 => 0
       | 1 => 3
       | 2 => 2
       | _ => 1
       end.
Proof.
  revert quad_pos leftchar pads out.
  induction ascii as [|c ascii IH]; intros quad_pos leftchar pads out H;
    cbn [a2b_loop] in H.
  - destruct (quad_pos =? 0); [|discriminate].
    assert (r = out) by congruence. subst. lia.
  - cbn [filter]. unfold data_char at 1.
    destruct (Byte.eqb c BASE64_PAD); cbn [negb andb].
    + destruct (2 <=? quad_pos).
      * destruct (4 <=? quad_pos + S pads).
        -- assert (r = out) by congruence. subst. lia.
        -- apply IH in H. lia.
      * apply IH in H. lia.
    + destruct (a2b c) as [v|].
      * destruct quad_pos as [|[|[|q]]]; apply IH in H;
          rewrite ?length_app in H; cbn [length] in *; lia.
      * apply IH in H. lia.
Qed.

Lemma data_chars_b2a_base64 (bin : bytes) :
  3 * length (filter data_char (b2a_base64 bin)) <= 4 * length bin + 2.
Proof.
  induction bin as [| x | x y | x y z l IH] using list_ind3;
    cbn [b2a_base64 filter length];
    rewrite ?data_char_b2a
      by first [ apply sextet0_lt | apply sextet1_lt | apply sextet2_lt
               | apply sextet3_lt | apply tail1_lt | apply tail2_lt ];
    change (data_char BASE64_PAD) with false; cbn [length]; lia.
Qed.

Lemma data_chars_replace_at (k : nat) (d : byte) (l : bytes) :
  k < length l ->
  data_char (nth k l BASE64_PAD) = true -> data_char d = false ->
  S (length (filter data_char (replace_at k d l)))
  = length (filter data_char l).
Proof.
  intros Hk Hc Hd.
  rewrite (replace_at_split l BASE64_PAD Hk) at 2.
  unfold replace_at. rewrite !filter_app, !length_app. cbn [filter].
  rewrite Hc, Hd. cbn [length]. lia.
Qed.

(** A data character replaced by a pad or by a byte outside the alphabet:
    the text decodes to fewer bytes, if it decodes. *)
Lemma a2b_loop_lost_char (bin r : bytes) (k : nat) (d : byte) :
  k < length (b2a_base64 bin) ->
  data_char (nth k (b2a_base64 bin) BASE64_PAD) = true -> data_char d = false ->
  a2b_loop (replace_at k d (b2a_base64 bin)) 0 0 0 [] = Ok r ->
  length r < length bin.
Proof.
  intros Hk Hc Hd H. apply a2b_loop_data_chars in H.
  pose proof (@data_chars_replace_at k d _ Hk Hc Hd).
  pose proof (data_chars_b2a_base64 bin).
  cbn [length] in H. lia.
Qed.

Lemma Ok_inj {A} (a b : A) : Ok a = Ok b -> a = b.
Proof. congruence. Qed.

Lemma cons_inj {A} (a b : A) (l l' : list A) :
  a :: l = b :: l' -> a = b /\ l = l'.
Proof. intros H. split; congruence. Qed.

Ltac sextets :=
  first [ assumption | apply sextet0_lt | apply sextet1_lt | apply sextet2_lt
        | apply sextet3_lt | apply tail1_lt | apply tail2_lt ].

(** A character of the encoding of [bin] replaced by another one, and the
    text still decodes to [bin]: then that character is the last one before
    the padding. *)
Lemma a2b_loop_changed_char (bin : bytes) :
  forall (k : nat) (d : byte) (out : bytes),
    k < length (b2a_base64 bin) ->
    d <> nth k (b2a_base64 bin) BASE64_PAD ->
    (data_char (nth k (b2a_base64 bin) BASE64_PAD) = true -> data_char d = true) ->
    a2b_loop (replace_at k d (b2a_base64 bin)) 0 0 0 out = Ok (out ++ bin) ->
    slack_index bin = Some k.
Proof.
  induction bin as [| x | x y | x y z l IH] using list_ind3;
    intros k d out Hk Hne Hdata H.
  - simpl in Hk. lia.
  - cbn [b2a_base64 length] in *.
    destruct k as [|[|[|[|k]]]]; [ | reflexivity | | | lia ];
      unfold replace_at in H; cbn [firstn skipn app nth] in *.
    + destruct (@data_char_inv _ (Hdata (@data_char_b2a _ (sextet0_lt x))))
        as (v & Hv & ->).
      rewrite a2b_loop_two, !a2b_loop_pad in H by sextets.
      cbn [Nat.leb Nat.add a2b_loop Nat.eqb] in H. apply Ok_inj, app_inv_head in H.
      destruct (b2a_base64_two Hv (tail1_lt x)) as (c1 & E).
      rewrite H in E. cbn [b2a_base64] in E.
      apply cons_inj in E. destruct E as [E _]. now elim Hne.
    + rewrite a2b_loop_two in H by sextets.
      destruct (data_char d) eqn:Hd.
      * destruct (@data_char_inv _ Hd) as (v & Hv & ->).
        rewrite a2b_loop_char, a2b_loop_pad in H by sextets.
        cbn [Nat.leb Nat.add a2b_loop Nat.eqb] in H. apply Ok_inj in H. apply (f_equal (@length byte)) in H.
        rewrite !length_app in H. cbn [length] in H. lia.
      * rewrite a2b_loop_other, a2b_loop_pad in H by assumption.
        cbn in H. discriminate.
    + rewrite a2b_loop_two, a2b_loop_pad in H by sextets.
      cbn [Nat.leb Nat.add] in H.
      destruct (data_char d) eqn:Hd.
      * destruct (@data_char_inv _ Hd) as (v & Hv & ->).
        rewrite a2b_loop_char in H by sextets.
        cbn in H. discriminate.
      * rewrite a2b_loop_other in H by assumption.
        cbn in H. discriminate.
  - cbn [b2a_base64 length] in *.
    destruct k as [|[|[|[|k]]]]; [ | | reflexivity | | lia ];
      unfold replace_at in H; cbn [firstn skipn app nth] in *.
    + destruct (@data_char_inv _ (Hdata (@data_char_b2a _ (sextet0_lt x))))
        as (v & Hv & ->).
      rewrite a2b_loop_three, a2b_loop_pad in H by sextets.
      cbn [Nat.leb Nat.add a2b_loop Nat.eqb] in H. apply Ok_inj, app_inv_head in H.
      destruct (b2a_base64_three Hv (sextet1_lt x y) (tail2_lt y)) as (c2 & E).
      rewrite H in E. cbn [b2a_base64] in E.
      apply cons_inj in E. destruct E as [E _]. now elim Hne.
    + destruct (@data_char_inv _ (Hdata (@data_char_b2a _ (sextet1_lt x y))))
        as (v & Hv & ->).
      rewrite a2b_loop_three, a2b_loop_pad in H by sextets.
      cbn [Nat.leb Nat.add a2b_loop Nat.eqb] in H. apply Ok_inj, app_inv_head in H.
      destruct (b2a_base64_three (sextet0_lt x) Hv (tail2_lt y)) as (c2 & E).
      rewrite H in E. cbn [b2a_base64] in E.
      apply cons_inj in E. destruct E as [_ E].
      apply cons_inj in E. destruct E as [E _]. now elim Hne.
    + rewrite a2b_loop_three in H by sextets.
      destruct (data_char d) eqn:Hd.
      * destruct (@data_char_inv _ Hd) as (v & Hv & ->).
        rewrite a2b_loop_char in H by sextets.
        cbn [Nat.leb Nat.add a2b_loop Nat.eqb] in H. apply Ok_inj in H. apply (f_equal (@length byte)) in H.
        rewrite !length_app in H. cbn [length] in H. lia.
      * rewrite a2b_loop_other in H by assumption.
        cbn in H. discriminate.
  - cbn [b2a_base64 length] in *.
    destruct k as [|[|[|[|k]]]];
      unfold replace_at in H; cbn [firstn skipn app nth] in *.
    + destruct (@data_char_inv _ (Hdata (@data_char_b2a _ (sextet0_lt x))))
        as (v & Hv & ->).
      rewrite a2b_loop_four, a2b_loop_b2a_base64 in H by sextets.
      apply Ok_inj in H. rewrite <- app_assoc in H. apply app_inv_head in H.
      cbn [app] in H.
      pose proof (b2a_base64_four Hv (sextet1_lt x y) (sextet2_lt y z)
                    (sextet3_lt z)) as E.
      do 3 (apply cons_inj in H; destruct H as [?E H]).
      rewrite E0, E1, E2 in E. cbn [b2a_base64] in E.
      apply cons_inj in E. destruct E as [E _]. now elim Hne.
    + destruct (@data_char_inv _ (Hdata (@data_char_b2a _ (sextet1_lt x y))))
        as (v & Hv & ->).
      rewrite a2b_loop_four, a2b_loop_b2a_base64 in H by sextets.
      apply Ok_inj in H. rewrite <- app_assoc in H. apply app_inv_head in H.
      cbn [app] in H.
      pose proof (b2a_base64_four (sextet0_lt x) Hv (sextet2_lt y z)
                    (sextet3_lt z)) as E.
      do 3 (apply cons_inj in H; destruct H as [?E H]).
      rewrite E0, E1, E2 in E. cbn [b2a_base64] in E.
      do 1 (apply cons_inj in E; destruct E as [_ E]).
      apply cons_inj in E. destruct E as [E _]. now elim Hne.
    + destruct (@data_char_inv _ (Hdata (@data_char_b2a _ (sextet2_lt y z))))
        as (v & Hv & ->).
      rewrite a2b_loop_four, a2b_loop_b2a_base64 in H by sextets.
      apply Ok_inj in H. rewrite <- app_assoc in H. apply app_inv_head in H.
      cbn [app] in H.
      pose proof (b2a_base64_four (sextet0_lt x) (sextet1_lt x y) Hv
                    (sextet3_lt z)) as E.
      do 3 (apply cons_inj in H; destruct H as [?E H]).
      rewrite E0, E1, E2 in E. cbn [b2a_base64] in E.
      do 2 (apply cons_inj in E; destruct E as [_ E]).
      apply cons_inj in E. destruct E as [E _]. now elim Hne.
    + destruct (@data_char_inv _ (Hdata (@data_char_b2a _ (sextet3_lt z))))
        as (v & Hv & ->).
      rewrite a2b_loop_four, a2b_loop_b2a_base64 in H by sextets.
      apply Ok_inj in H. rewrite <- app_assoc in H. apply app_inv_head in H.
      cbn [app] in H.
      pose proof (b2a_base64_four (sextet0_lt x) (sextet1_lt x y)
                    (sextet2_lt y z) Hv) as E.
      do 3 (apply cons_inj in H; destruct H as [?E H]).
      rewrite E0, E1, E2 in E. cbn [b2a_base64] in E.
      do 3 (apply cons_inj in E; destruct E as [_ E]).
      apply cons_inj in E. destruct E as [E _]. now elim Hne.
    + change (firstn k (b2a_base64 l) ++ d :: skipn (S k) (b2a_base64 l))
        with (replace_at k d (b2a_base64 l)) in H.
      rewrite a2b_loop_four in H by sextets.
      unfold quad_byte0, quad_byte1, quad_byte2 in H.
      rewrite byte0_of_sextets, left1_of_sextets, byte1_of_sextets,
        left2_of_sextets, byte2_of_sextets in H.
      replace (out ++ x :: y :: z :: l) with ((out ++ [x; y; z]) ++ l) in H
        by (rewrite <- app_assoc; reflexivity).
      cbn [slack_index]. rewrite (IH k d (out ++ [x; y; z])); try assumption.
      * reflexivity.
      * lia.
Qed.

(** The encoder writes data characters and pads, nothing else. *)
Lemma b2a_base64_chars (bin : bytes) :
  Forall (fun c => c = BASE64_PAD \/ data_char c = true) (b2a_base64 bin).
Proof.
  induction bin as [| x | x y | x y z l IH] using list_ind3;
    cbn [b2a_base64];
    repeat (apply Forall_cons;
            [ first [ left; reflexivity | right; apply data_char_b2a; sextets ] |]);
    first [ apply Forall_nil | exact IH ].
Qed.

Lemma nth_b2a_base64 (bin : bytes) (k : nat) :
  nth k (b2a_base64 bin) BASE64_PAD = BASE64_PAD
  \/ data_char (nth k (b2a_base64 bin) BASE64_PAD) = true.
Proof.
  destruct (Nat.lt_ge_cases k (length (b2a_base64 bin))) as [Hk|Hk].
  - pose proof (b2a_base64_chars bin) as H. rewrite Forall_forall in H.
    apply H. now apply nth_In.
  - left. now apply nth_overflow.
Qed.

(** One flipped bit of a character of the URL-safe text gives the decoder
    another character than the encoder wrote. *)
Lemma flipped_char_differs (c : byte) (b : nat) :
  c = BASE64_PAD \/ data_char c = true -> b < 8 ->
  lookup (flip_byte (N.of_nat b) (lookup c _urlsafe_encode_translation))
         _urlsafe_decode_translation <> c.
Proof.
  intros Hc Hb.
  assert (E : (fun c =>
                 implb (Byte.eqb c BASE64_PAD || data_char c)
                   (forallb
                      (fun b =>
                         negb (Byte.eqb
                                 (lookup (flip_byte (N.of_nat b)
                                            (lookup c _urlsafe_encode_translation))
                                         _urlsafe_decode_translation) c))
                      (seq 0 8))) c = true).
  { revert c Hc. intros c _. revert c. apply byte_forall. vm_compute. reflexivity. }
  cbv beta in E.
  assert (Hc' : Byte.eqb c BASE64_PAD || data_char c = true).
  { destruct Hc as [-> | ->]; [reflexivity | apply orb_true_r]. }
  rewrite Hc' in E. cbn [implb] in E.
  rewrite forallb_forall in E.
  assert (Hin : In b (seq 0 8)) by (apply in_seq; lia).
  apply E in Hin. apply negb_true_iff in Hin.
  intros Heq. rewrite Heq, byte_eqb_refl in Hin. discriminate.
Qed.

(** A single-bit flip of the encoding of [bin] that still decodes to [bin]
    is a flip in the last character before the padding. *)
Lemma urlsafe_b64decode_flip_bit (bin : bytes) (i : nat) :
  i < 8 * length (urlsafe_b64encode bin) ->
  urlsafe_b64decode (flip_bit i (urlsafe_b64encode bin)) = Ok bin ->
  slack_index bin = Some (i / 8).
Proof.
  intros Hi H.
  assert (Hk : i / 8 < length (b2a_base64 bin)).
  { unfold urlsafe_b64encode, translate in Hi. rewrite length_map in Hi.
    apply Nat.Div0.div_lt_upper_bound. exact Hi. }
  rewrite flip_bit_replace_at in H by exact Hi.
  unfold urlsafe_b64decode, a2b_base64, translate in H.
  rewrite replace_at_map in H.
  change (map (fun c => lookup c _urlsafe_decode_translation) (urlsafe_b64encode bin))
    with (translate _urlsafe_decode_translation (urlsafe_b64encode bin)) in H.
  rewrite translate_b2a_base64 in H.
  assert (Hn : nth (i / 8) (urlsafe_b64encode bin) "000"%byte
               = lookup (nth (i / 8) (b2a_base64 bin) BASE64_PAD)
                        _urlsafe_encode_translation).
  { unfold urlsafe_b64encode, translate.
    rewrite (nth_indep _ "000"%byte
               (lookup BASE64_PAD _urlsafe_encode_translation))
      by (rewrite length_map; exact Hk).
    apply (map_nth (fun c => lookup c _urlsafe_encode_translation)). }
  rewrite Hn in H.
  assert (Hb : i mod 8 < 8) by (apply Nat.mod_upper_bound; lia).
  pose proof (@flipped_char_differs _ (i mod 8) (nth_b2a_base64 bin (i / 8)) Hb)
    as Hne.
  set (d := lookup (flip_byte (N.of_nat (i mod 8))
                      (lookup (nth (i / 8) (b2a_base64 bin) BASE64_PAD)
                              _urlsafe_encode_translation))
                   _urlsafe_decode_translation) in *.
  destruct (data_char (nth (i / 8) (b2a_base64 bin) BASE64_PAD)) eqn:Hc;
    [destruct (data_char d) eqn:Hd|].
  - apply (@a2b_loop_changed_char bin (i / 8) d []); auto.
  - apply (@a2b_loop_lost_char bin bin (i / 8) d Hk Hc Hd) in H. lia.
  - apply (@a2b_loop_changed_char bin (i / 8) d []); auto.
    intros Hx. congruence.
Qed.

Lemma pad_not_b2a (s : N) :
  (s < 64)%N ->
  Byte.eqb BASE64_PAD (lookup (b2a s) _urlsafe_encode_translation) = false.
Proof.
  intros Hs. apply negb_true_iff. revert s Hs.
  apply sextet_forall. vm_compute. reflexivity.
Qed.

(** The last character before the padding: all that follows it is the
    padding, and the text has no other pad. *)
Lemma slack_index_padding (bin : bytes) (k : nat) :
  slack_index bin = Some k ->
  0 < padding (urlsafe_b64encode bin)
  /\ k + padding (urlsafe_b64encode bin) + 1 = length (urlsafe_b64encode bin)
  /\ skipn (S k) (urlsafe_b64encode bin)
     = repeat BASE64_PAD (padding (urlsafe_b64encode bin)).
Proof.
  unfold padding, urlsafe_b64encode, translate. revert k.
  induction bin as [| x | x y | x y z l IH] using list_ind3; intros k H;
    cbn [slack_index] in H.
  - discriminate.
  - assert (k = 1) by congruence. subst k.
    cbn [b2a_base64 map filter length skipn].
    rewrite !pad_not_b2a by sextets.
    change (lookup BASE64_PAD _urlsafe_encode_translation) with BASE64_PAD.
    change (Byte.eqb BASE64_PAD BASE64_PAD) with true.
    cbn [filter length repeat]. repeat split; lia.
  - assert (k = 2) by congruence. subst k.
    cbn [b2a_base64 map filter length skipn].
    rewrite !pad_not_b2a by sextets.
    change (lookup BASE64_PAD _urlsafe_encode_translation) with BASE64_PAD.
    change (Byte.eqb BASE64_PAD BASE64_PAD) with true.
    cbn [filter length repeat]. repeat split; lia.
  - destruct (slack_index l) as [k'|]; [|discriminate].
    cbn [option_map] in H. assert (k = 4 + k') by congruence. subst k.
    destruct (IH k' eq_refl) as (H1 & H2 & H3).
    cbn [b2a_base64 map filter length skipn Nat.add].
    rewrite !pad_not_b2a by sextets.
    split; [exact H1|]. split; [lia | exact H3].
Qed.

End Base64Facts.
Import Base64Facts.

(** ** PKCS7 *)

Module PKCS7Facts.

Lemma nat_forall_lt (f : nat -> bool) (k : nat) :
  forallb f (seq 0 k) = true -> forall n, n < k -> f n = true.
Proof.
  intros H n Hn. rewrite forallb_forall in H. apply H, in_seq. lia.
Qed.

Lemma to_nat_u8 (n : nat) : n < 256 -> Byte.to_nat (u8 (N.of_nat n)) = n.
Proof.
  intros Hn. apply Nat.eqb_eq. revert n Hn.
  apply nat_forall_lt. vm_compute. reflexivity.
Qed.

Lemma pad_size_range (n : nat) :
  1 <= PKCS7.block_size - n mod PKCS7.block_size <= 16.
Proof.
  unfold PKCS7.block_size.
  pose proof (Nat.mod_upper_bound n 16). lia.
Qed.

(** The padded length is the next multiple of 16 strictly above the
    plaintext length. *)
Lemma pad_length (data : bytes) :
  length (PKCS7.pad data) = 16 * (length data / 16 + 1).
Proof.
  unfold PKCS7.pad, PKCS7.block_size.
  rewrite length_app, repeat_length.
  pose proof (Nat.div_mod_eq (length data) 16).
  pose proof (Nat.mod_upper_bound (length data) 16). lia.
Qed.

Lemma pad_blocks (data : bytes) :
  length (PKCS7.pad data) / 16 = length data / 16 + 1.
Proof.
  rewrite pad_length, Nat.mul_comm. apply Nat.div_mul. lia.
Qed.

Lemma pad_length_mod (data : bytes) : length (PKCS7.pad data) mod 16 = 0.
Proof.
  rewrite pad_length, Nat.mul_comm. apply Nat.Div0.mod_mul.
Qed.

Lemma last_app_repeat (l : bytes) (b d : byte) (k : nat) :
  last (l ++ repeat b (S k)) d = b.
Proof.
  replace (repeat b (S k)) with (repeat b k ++ [b])
    by (rewrite <- repeat_cons; reflexivity).
  rewrite app_assoc. apply last_last.
Qed.

Lemma forallb_eqb_repeat (b : byte) (k : nat) :
  forallb (Byte.eqb b) (repeat b k) = true.
Proof.
  induction k as [|k IH]; simpl; [reflexivity|].
  now rewrite byte_eqb_refl, IH.
Qed.

(** Unpadding undoes padding. *)
Lemma unpad_pad (data : bytes) : PKCS7.unpad (PKCS7.pad data) = Ok data.
Proof.
  unfold PKCS7.unpad.
  assert (Hlen : 0 < length (PKCS7.pad data))
    by (rewrite pad_length; lia).
  apply Nat.ltb_lt in Hlen. rewrite Hlen.
  change PKCS7.block_size with 16 at 1.
  rewrite pad_length_mod. cbn [Nat.eqb andb].
  unfold PKCS7.check_padding, PKCS7.pad.
  pose proof (pad_size_range (length data)) as Hps.
  set (ps := PKCS7.block_size - length data mod PKCS7.block_size) in *.
  destruct ps as [|k] eqn:Eps; [lia|].
  rewrite last_app_repeat, to_nat_u8 by lia.
  rewrite take_last_app by apply repeat_length.
  rewrite drop_last_app by apply repeat_length.
  rewrite forallb_eqb_repeat.
  replace (0 <? S k) with true by (symmetry; apply Nat.ltb_lt; lia).
  replace (S k <=? PKCS7.block_size) with true
    by (symmetry; apply Nat.leb_le; unfold PKCS7.block_size; lia).
  reflexivity.
Qed.

End PKCS7Facts.
Import PKCS7Facts.

(** ** The codec *)

Section CodecFacts.

Variable aes_encrypt_block : bytes -> bytes -> bytes.
Variable aes_decrypt_block : bytes -> bytes -> bytes.
Variable hmac_sha256 : bytes -> bytes -> bytes.

(** What is asked of the primitives: AES-128 maps a 16-byte block to a
    16-byte block, decryption undoes encryption under the same key, and an
    HMAC-SHA256 tag has 32 bytes. *)
Hypothesis aes_block_length : forall key block,
  length key = 16 -> length block = 16 ->
  length (aes_encrypt_block key block) = 16.
Hypothesis aes_decrypt_encrypt : forall key block,
  length key = 16 -> length block = 16 ->
  aes_decrypt_block key (aes_encrypt_block key block) = block.
Hypothesis hmac_length : forall key msg, length (hmac_sha256 key msg) = 32.

Lemma cbc_encrypt_blocks_length (key prev : bytes) (n : nat) (data : bytes) :
  length key = 16 -> length prev = 16 -> length data = 16 * n ->
  length (cbc_encrypt_blocks aes_encrypt_block key prev n data) = 16 * n.
Proof.
  intros Hk. revert prev data.
  induction n as [|n IH]; intros prev data Hp Hd; [reflexivity|].
  cbn [cbc_encrypt_blocks].
  assert (Hb : length (xor_bytes (firstn 16 data) prev) = 16).
  { rewrite xor_bytes_length; rewrite length_firstn; lia. }
  rewrite length_app, aes_block_length by assumption.
  rewrite IH; [lia | now apply aes_block_length |].
  rewrite length_skipn. lia.
Qed.

(** CBC decryption undoes CBC encryption, block by block. *)
Lemma cbc_decrypt_encrypt_blocks (key prev : bytes) (n : nat) (data : bytes) :
  length key = 16 -> length prev = 16 -> length data = 16 * n ->
  cbc_decrypt_blocks aes_decrypt_block key prev n
    (cbc_encrypt_blocks aes_encrypt_block key prev n data) = data.
Proof.
  intros Hk. revert prev data.
  induction n as [|n IH]; intros prev data Hp Hd.
  - destruct data; [reflexivity | discriminate].
  - cbn [cbc_encrypt_blocks cbc_decrypt_blocks].
    assert (Hf : length (firstn 16 data) = 16)
      by (rewrite length_firstn; lia).
    assert (Hb : length (xor_bytes (firstn 16 data) prev) = 16)
      by (rewrite xor_bytes_length; lia).
    pose proof (aes_block_length key _ Hk Hb) as Hc.
    set (c := aes_encrypt_block key (xor_bytes (firstn 16 data) prev)) in *.
    rewrite (firstn_exact_app _ _ Hc), (skipn_exact_app _ _ Hc).
    unfold c at 1. rewrite aes_decrypt_encrypt by assumption.
    rewrite xor_bytes_cancel by lia.
    rewrite IH; [apply firstn_skipn | exact Hc |].
    rewrite length_skipn. lia.
Qed.

Lemma cbc_encrypt_ok (key iv data : bytes) :
  length data mod 16 = 0 ->
  cbc_encrypt aes_encrypt_block key iv data =
  Ok (cbc_encrypt_blocks aes_encrypt_block key iv (length data / 16) data).
Proof. intros H. unfold cbc_encrypt. now rewrite H. Qed.

(** *** The token [encrypt] builds *)

Variable CIPHER : Fernet.
Hypothesis CIPHER_ok : Fernet_ok CIPHER.

Local Abbreviation encrypt_ := (encrypt aes_encrypt_block hmac_sha256 CIPHER).
Local Abbreviation decrypt_ := (decrypt aes_decrypt_block hmac_sha256 CIPHER).
Local Abbreviation basic_parts_ := (basic_parts aes_encrypt_block CIPHER).
Local Abbreviation signed_parts_ :=
  (signed_parts aes_encrypt_block hmac_sha256 CIPHER).

Lemma Cipher_ok (iv : bytes) :
  length iv = 16 -> Cipher (_encryption_key CIPHER) iv = Ok tt.
Proof.
  intros Hiv. unfold Cipher. destruct CIPHER_ok as [_ Hk].
  now rewrite Hk, Hiv.
Qed.

Lemma encrypt_signed_parts (env : entropy) (data : bytes) :
  entropy_ok env ->
  encrypt_ env data = Ok (urlsafe_b64encode (signed_parts_ env data)).
Proof.
  intros [Ht Hiv].
  unfold encrypt, Fernet_encrypt, _encrypt_from_parts.
  rewrite (Cipher_ok _ Hiv). cbn [bind].
  rewrite cbc_encrypt_ok by apply pad_length_mod. cbn [bind].
  unfold int_to_bytes8. apply N.ltb_lt in Ht. rewrite Ht. cbn [bind].
  reflexivity.
Qed.

Lemma ciphertext_length (env : entropy) (data : bytes) :
  entropy_ok env ->
  length (cbc_encrypt_blocks aes_encrypt_block (_encryption_key CIPHER)
            (urandom16 env) (length (PKCS7.pad data) / 16) (PKCS7.pad data))
  = 16 * (length data / 16 + 1).
Proof.
  intros [_ Hiv]. destruct CIPHER_ok as [_ Hk].
  rewrite pad_blocks.
  apply cbc_encrypt_blocks_length; try assumption.
  apply pad_length.
Qed.

Lemma basic_parts_length (env : entropy) (data : bytes) :
  entropy_ok env ->
  length (basic_parts_ env data) = 25 + 16 * (length data / 16 + 1).
Proof.
  intros Henv. unfold basic_parts.
  rewrite !length_app, to_bytes_big_length, (ciphertext_length data Henv).
  destruct Henv as [_ Hiv]. rewrite Hiv. simpl length. lia.
Qed.

Lemma signed_parts_length (env : entropy) (data : bytes) :
  entropy_ok env ->
  length (signed_parts_ env data) = 57 + 16 * (length data / 16 + 1).
Proof.
  intros Henv. unfold signed_parts.
  rewrite length_app, hmac_length, basic_parts_length by assumption. lia.
Qed.

Lemma encrypt_length (env : entropy) (data sealed : bytes) :
  entropy_ok env -> encrypt_ env data = Ok sealed ->
  length sealed = sealed_length (length data).
Proof.
  intros Henv H. rewrite encrypt_signed_parts in H by assumption.
  injection H as <-.
  rewrite urlsafe_b64encode_length, signed_parts_length by assumption.
  reflexivity.
Qed.

(** *** What [decrypt] reads back from it *)

(** The fields [decrypt] slices out of a signed token. *)
Lemma token_fields (ts iv ct tag : bytes) :
  length ts = 8 -> length iv = 16 -> length tag = 32 ->
  let data := (x80 :: ts ++ iv ++ ct) ++ tag in
  drop_last 32 data = x80 :: ts ++ iv ++ ct
  /\ take_last 32 data = tag
  /\ slice 9 25 data = iv
  /\ slice 25 (length data - 32) data = ct.
Proof.
  intros Hts Hiv Htag data. unfold data.
  split; [apply drop_last_app; exact Htag|].
  split; [apply take_last_app; exact Htag|].
  unfold slice.
  replace ((x80 :: ts ++ iv ++ ct) ++ tag)
    with ((x80 :: ts) ++ iv ++ ct ++ tag)
    by (cbn [app]; rewrite <- !app_assoc; reflexivity).
  split.
  - rewrite skipn_exact_app by (simpl; lia).
    apply firstn_exact_app. exact Hiv.
  - rewrite !length_app, Htag. cbn [length]. rewrite Hts, Hiv.
    rewrite app_assoc.
    rewrite skipn_exact_app by (rewrite length_app; simpl; lia).
    apply firstn_exact_app. lia.
Qed.

Lemma verify_signed (bp : bytes) :
  _verify_signature hmac_sha256 CIPHER
    (bp ++ hmac_sha256 (_signing_key CIPHER) bp) = Ok tt.
Proof.
  unfold _verify_signature.
  rewrite drop_last_app, take_last_app by apply hmac_length.
  now rewrite eqb_refl.
Qed.

(** [decrypt] undoes [encrypt], on the token level. *)
Lemma decrypt_signed_parts (env : entropy) (data : bytes) :
  entropy_ok env ->
  decrypt_ (urlsafe_b64encode (signed_parts_ env data)) = Ok data.
Proof.
  intros Henv. pose proof Henv as [Ht Hiv]. pose proof CIPHER_ok as [_ Hk].
  unfold decrypt, Fernet_decrypt, _get_unverified_token_data.
  rewrite urlsafe_b64decode_encode. cbn [except_raise bind].
  pose proof (signed_parts_length data Henv) as Hlen.
  unfold signed_parts, basic_parts in *. cbn [app] in *.
  set (ts := to_bytes_big 8 (time_time env)) in *.
  set (iv := urandom16 env) in *.
  set (ct := cbc_encrypt_blocks aes_encrypt_block (_encryption_key CIPHER) iv
               (length (PKCS7.pad data) / 16) (PKCS7.pad data)) in *.
  set (bp := x80 :: ts ++ iv ++ ct) in *.
  set (tag := hmac_sha256 (_signing_key CIPHER) bp) in *.
  assert (Hts : length ts = 8) by apply to_bytes_big_length.
  assert (Htag : length tag = 32) by apply hmac_length.
  destruct (@token_fields ts iv ct tag Hts Hiv Htag) as (_ & _ & Hsl_iv & Hsl_ct).
  fold bp in Hsl_iv, Hsl_ct.
  change (Byte.eqb x80 x80) with true. cbn [negb].
  replace (length (x80 :: (ts ++ iv ++ ct) ++ tag) <? 9) with false
    by (symmetry; apply Nat.ltb_ge; lia).
  change (x80 :: (ts ++ iv ++ ct) ++ tag) with (bp ++ tag).
  cbn [bind fst snd]. unfold _decrypt_data.
  unfold tag at 1. rewrite verify_signed. cbn [bind].
  rewrite Hsl_iv, Hsl_ct, (Cipher_ok _ Hiv). cbn [bind].
  assert (Hct : length ct = 16 * (length data / 16 + 1))
    by (apply ciphertext_length; exact Henv).
  unfold cbc_decrypt. rewrite Hct.
  rewrite (Nat.mul_comm 16), Nat.Div0.mod_mul, Nat.div_mul by lia.
  cbn [Nat.eqb except_raise bind].
  unfold ct. rewrite pad_blocks.
  rewrite cbc_decrypt_encrypt_blocks; try assumption.
  - now rewrite unpad_pad.
  - apply pad_length.
Qed.

(** *** Tampered tokens *)

(** [decrypt] looks at a token only through its base64 decoding. *)
Lemma decrypt_decode_eq (t1 t2 : bytes) :
  urlsafe_b64decode t1 = urlsafe_b64decode t2 -> decrypt_ t1 = decrypt_ t2.
Proof.
  intros H. unfold decrypt, Fernet_decrypt, _get_unverified_token_data.
  now rewrite H.
Qed.

(** Whatever the token, [decrypt] raises [InvalidToken] unless the decoded
    bytes end in the HMAC of what precedes it. *)
Lemma decrypt_rejects_or_authentic (t : bytes) :
  decrypt_ t = Raise InvalidToken
  \/ exists data,
       urlsafe_b64decode t = Ok data
       /\ hmac_sha256 (_signing_key CIPHER) (drop_last 32 data) = take_last 32 data.
Proof.
  unfold decrypt, Fernet_decrypt, _get_unverified_token_data.
  destruct (urlsafe_b64decode t) as [data|e]; cbn [except_raise bind];
    [|now left].
  destruct data as [|v rest]; [now left|].
  destruct (Byte.eqb v x80); cbn [negb]; [|now left].
  destruct (length (v :: rest) <? 9); cbn [bind fst snd]; [now left|].
  unfold _decrypt_data, _verify_signature.
  destruct (PyBytes.eqb _ _) eqn:E; cbn [bind].
  - right. exists (v :: rest). split; [reflexivity | now apply eqb_eq].
  - now left.
Qed.

(** A token that decodes to the basic parts of [encrypt(p)] followed by
    32 bytes other than their HMAC is rejected. *)
Lemma decrypt_wrong_tag (t : bytes) (env : entropy) (p tag' : bytes) :
  urlsafe_b64decode t = Ok (basic_parts_ env p ++ tag') ->
  length tag' = 32 ->
  tag' <> hmac_sha256 (_signing_key CIPHER) (basic_parts_ env p) ->
  decrypt_ t = Raise InvalidToken.
Proof.
  intros Hdec Hlen Hne.
  destruct (decrypt_rejects_or_authentic t) as [H | (data & Hd & Hmac)];
    [exact H|].
  assert (E : data = basic_parts_ env p ++ tag') by congruence.
  rewrite E, drop_last_app, take_last_app in Hmac by exact Hlen.
  congruence.
Qed.

Lemma signed_parts_mod3 (env : entropy) (p : bytes) :
  entropy_ok env -> (length p / 16) mod 3 = 0 ->
  length (signed_parts_ env p) mod 3 = 1.
Proof.
  intros Henv H. rewrite signed_parts_length by exact Henv.
  pose proof (Nat.div_mod_eq (length p / 16) 3) as Hq. rewrite H in Hq.
  replace (57 + 16 * (length p / 16 + 1))
    with (1 + (24 + 16 * (length p / 16 / 3)) * 3) by lia.
  now rewrite Nat.Div0.mod_add.
Qed.

(** In a sealed packet whose plaintext fills 0, 3, 6, ... whole blocks
    (any packet under 16 bytes, for one) some bit can be flipped and
    [decrypt] still returns the plaintext. *)
Lemma flipped_bit_accepted (env : entropy) (p : bytes) :
  entropy_ok env -> (length p / 16) mod 3 = 0 ->
  exists sealed i,
    encrypt_ env p = Ok sealed
    /\ i < 8 * length sealed
    /\ flip_bit i sealed <> sealed
    /\ decrypt_ (flip_bit i sealed) = Ok p.
Proof.
  intros Henv H.
  destruct (urlsafe_b64_malleable _ (signed_parts_mod3 p Henv H))
    as (i & Hi & Hne & Hdec).
  exists (urlsafe_b64encode (signed_parts_ env p)), i.
  split; [now apply encrypt_signed_parts|].
  split; [exact Hi|]. split; [exact Hne|].
  rewrite <- (decrypt_signed_parts p Henv).
  apply decrypt_decode_eq.
  now rewrite Hdec, urlsafe_b64decode_encode.
Qed.

(** *** The claims on the codec *)

(** C2.  Round trip: for every byte sequence [p] within the 4096-byte MTU,
    [encrypt(p)] succeeds and [decrypt] of the sealed packet succeeds and
    returns exactly [p], both under the one process-lifetime key. *)
Theorem decrypt_encrypt_roundtrip (env : entropy) (p : bytes) :
  entropy_ok env -> length p <= bufsize ->
  exists sealed,
    encrypt aes_encrypt_block hmac_sha256 CIPHER env p = Ok sealed
    /\ decrypt aes_decrypt_block hmac_sha256 CIPHER sealed = Ok p.
Proof.
  intros Henv _.
  exists (urlsafe_b64encode (signed_parts_ env p)). split.
  - apply encrypt_signed_parts. exact Henv.
  - apply decrypt_signed_parts. exact Henv.
Qed.

(** C6.  [encrypt] is total: whatever the size of the input it returns a
    sealed packet, the base64 of the signed token, and takes none of its
    failure branches; no bound on the plaintext is looked at. *)
Theorem encrypt_total (env : entropy) (data : bytes) :
  entropy_ok env ->
  encrypt aes_encrypt_block hmac_sha256 CIPHER env data
  = Ok (urlsafe_b64encode
          (signed_parts aes_encrypt_block hmac_sha256 CIPHER env data))
  /\ forall e, encrypt aes_encrypt_block hmac_sha256 CIPHER env data <> Raise e.
Proof.
  intros Henv. rewrite (encrypt_signed_parts data Henv).
  split; [reflexivity | discriminate].
Qed.

Lemma sealed_length_gt (n : nat) : n < sealed_length n.
Proof.
  unfold sealed_length.
  pose proof (Nat.div_mod_eq n 16).
  pose proof (Nat.mod_upper_bound n 16).
  pose proof (Nat.div_mod_eq (57 + 16 * (n / 16 + 1) + 2) 3).
  pose proof (Nat.mod_upper_bound (57 + 16 * (n / 16 + 1) + 2) 3).
  lia.
Qed.

Lemma sealed_length_over_bufsize (n : nat) :
  bufsize < sealed_length n <-> 3008 <= n.
Proof.
  unfold sealed_length, bufsize.
  pose proof (Nat.div_mod_eq n 16).
  pose proof (Nat.mod_upper_bound n 16).
  pose proof (Nat.div_mod_eq (57 + 16 * (n / 16 + 1) + 2) 3).
  pose proof (Nat.mod_upper_bound (57 + 16 * (n / 16 + 1) + 2) 3).
  lia.
Qed.

(** C10.  A sealed packet is strictly longer than its plaintext (its
    length is [sealed_length]: framing, tag, padding and base64), so for a
    device packet of 3008 bytes or more, up to the 4096 that [ReadFile]
    may return, the sealed packet is longer than the 4096 bytes one
    [recvfrom(4096)] reads. *)
Theorem sealed_longer_than_plaintext (env : entropy) (p sealed : bytes) :
  entropy_ok env ->
  encrypt aes_encrypt_block hmac_sha256 CIPHER env p = Ok sealed ->
  length sealed = sealed_length (length p)
  /\ length p < length sealed
  /\ (3008 <= length p -> bufsize < length sealed).
Proof.
  intros Henv H. rewrite (encrypt_length _ Henv H). split; [reflexivity|].
  split; [apply sealed_length_gt | apply sealed_length_over_bufsize].
Qed.

(** C7, amended.  For every byte sequence [p] and every single-bit flip of
    [encrypt(p)], [decrypt] of the flipped packet raises [InvalidToken],
    with two exceptions.  One: the flipped bit lies in the last character
    before the [=] padding of the text (all that follows that character
    is the padding, and the text has no other [=]) and the flipped text
    decodes to the very same token; then [decrypt] returns [p].  Two: the
    flipped text decodes to other bytes that again end in the HMAC of
    what precedes it (a forgery).  When the decoded bytes differ from the
    original token in the 32-byte tag only, [decrypt] raises
    [InvalidToken]. *)
Theorem flipped_bit_rejected_outside_padding
        (env : entropy) (p sealed : bytes) (i : nat) :
  entropy_ok env ->
  encrypt aes_encrypt_block hmac_sha256 CIPHER env p = Ok sealed ->
  i < 8 * length sealed ->
  (decrypt aes_decrypt_block hmac_sha256 CIPHER (flip_bit i sealed)
   = Raise InvalidToken
   \/ (0 < padding sealed
       /\ i / 8 + padding sealed + 1 = length sealed
       /\ skipn (S (i / 8)) sealed = repeat BASE64_PAD (padding sealed)
       /\ urlsafe_b64decode (flip_bit i sealed)
          = Ok (signed_parts aes_encrypt_block hmac_sha256 CIPHER env p)
       /\ decrypt aes_decrypt_block hmac_sha256 CIPHER (flip_bit i sealed)
          = Ok p)
   \/ exists data,
        urlsafe_b64decode (flip_bit i sealed) = Ok data
        /\ data <> signed_parts aes_encrypt_block hmac_sha256 CIPHER env p
        /\ hmac_sha256 (_signing_key CIPHER) (drop_last 32 data)
           = take_last 32 data)
  /\ (forall tag',
        urlsafe_b64decode (flip_bit i sealed)
        = Ok (basic_parts aes_encrypt_block CIPHER env p ++ tag') ->
        length tag' = 32 ->
        tag' <> hmac_sha256 (_signing_key CIPHER)
                  (basic_parts aes_encrypt_block CIPHER env p) ->
        decrypt aes_decrypt_block hmac_sha256 CIPHER (flip_bit i sealed)
        = Raise InvalidToken).
Proof.
  intros Henv Hseal Hi.
  assert (Hs : sealed = urlsafe_b64encode (signed_parts_ env p)).
  { pose proof (encrypt_signed_parts p Henv) as E. congruence. }
  split.
  - destruct (decrypt_rejects_or_authentic (flip_bit i sealed))
      as [H | (data & Hd & Hmac)]; [now left|].
    right.
    destruct (list_eq_dec Byte.byte_eq_dec data (signed_parts_ env p))
      as [E|E].
    + left. subst data.
      assert (Hk : slack_index (signed_parts_ env p) = Some (i / 8)).
      { apply urlsafe_b64decode_flip_bit; rewrite <- Hs; assumption. }
      apply slack_index_padding in Hk. rewrite <- Hs in Hk.
      destruct Hk as (Hp & Hk & Hpads).
      split; [exact Hp|]. split; [exact Hk|]. split; [exact Hpads|].
      split; [exact Hd|].
      rewrite <- (decrypt_signed_parts p Henv).
      apply decrypt_decode_eq.
      now rewrite Hd, urlsafe_b64decode_encode.
    + right. now exists data.
  - intros tag' Hdec Hlen Hne. eapply decrypt_wrong_tag; eassumption.
Qed.

End CodecFacts.

(** [CIPHER = Fernet(KEY)] succeeds on a freshly generated key and holds
    two 128-bit keys. *)
Lemma Fernet_init_KEY (urandom32 : bytes) :
  length urandom32 = 32 ->
  exists CIPHER, Fernet_init (KEY urandom32) = Ok CIPHER /\ Fernet_ok CIPHER.
Proof.
  intros H. unfold Fernet_init, KEY, generate_key.
  rewrite urlsafe_b64decode_encode. cbn [except_raise bind]. rewrite H.
  eexists. split; [reflexivity|].
  unfold Fernet_ok. cbn [_signing_key _encryption_key].
  rewrite length_firstn, length_skipn. lia.
Qed.

(** *** The stand-in primitives meet what is asked of AES and HMAC *)

Lemma xor_block_cipher_length (key block : bytes) :
  length key = 16 -> length block = 16 ->
  length (xor_block_cipher key block) = 16.
Proof.
  intros Hk Hb. unfold xor_block_cipher. rewrite xor_bytes_length; lia.
Qed.

Lemma xor_block_cipher_inverse (key block : bytes) :
  length key = 16 -> length block = 16 ->
  xor_block_cipher key (xor_block_cipher key block) = block.
Proof.
  intros Hk Hb. unfold xor_block_cipher. apply xor_bytes_cancel. lia.
Qed.

Lemma fold_mac_length (key msg : bytes) : length (fold_mac key msg) = 32.
Proof. unfold fold_mac. now rewrite length_map, length_seq. Qed.

Lemma demo_cipher_ok : Fernet_ok demo_cipher.
Proof. split; reflexivity. Qed.

Lemma demo_env_ok : entropy_ok demo_env.
Proof. split; reflexivity. Qed.

Lemma decrypt_encrypt_roundtrip_witness :
  exists sealed,
    encrypt xor_block_cipher fold_mac demo_cipher demo_env demo_packet = Ok sealed
    /\ decrypt xor_block_cipher fold_mac demo_cipher sealed = Ok demo_packet.
Proof.
  apply (@decrypt_encrypt_roundtrip
           xor_block_cipher xor_block_cipher fold_mac
           xor_block_cipher_length xor_block_cipher_inverse fold_mac_length
           demo_cipher demo_cipher_ok demo_env demo_packet demo_env_ok).
  unfold bufsize, demo_packet. simpl. lia.
Defined.


Lemma encrypt_total_witness :
  encrypt xor_block_cipher fold_mac demo_cipher demo_env demo_packet
  = Ok (urlsafe_b64encode
          (signed_parts xor_block_cipher fold_mac demo_cipher demo_env demo_packet))
  /\ forall e,
      encrypt xor_block_cipher fold_mac demo_cipher demo_env demo_packet <> Raise e.
Proof.
  exact (@encrypt_total xor_block_cipher fold_mac
           demo_cipher demo_cipher_ok demo_env demo_packet demo_env_ok).
Defined.

Lemma demo_sealed_encrypt :
  encrypt xor_block_cipher fold_mac demo_cipher demo_env demo_packet = Ok demo_sealed.
Proof. vm_compute. reflexivity. Qed.

Lemma sealed_longer_than_plaintext_witness :
  length demo_sealed = sealed_length (length demo_packet)
  /\ length demo_packet < length demo_sealed
  /\ (3008 <= length demo_packet -> bufsize < length demo_sealed).
Proof.
  exact (@sealed_longer_than_plaintext xor_block_cipher fold_mac
           xor_block_cipher_length fold_mac_length
           demo_cipher demo_cipher_ok demo_env demo_packet demo_sealed
           demo_env_ok demo_sealed_encrypt).
Defined.

(** C7 as stated fails: take a five-byte packet.  Under any AES, any HMAC,
    any key and any clock and IV, its sealed form has a bit whose flip
    gives a different text that [decrypt] accepts, returning the packet. *)
Lemma flipped_bit_decrypts :
  exists p : bytes,
    forall (aes_encrypt_block aes_decrypt_block hmac_sha256
              : bytes -> bytes -> bytes),
      (forall key block, length key = 16 -> length block = 16 ->
         length (aes_encrypt_block key block) = 16) ->
      (forall key block, length key = 16 -> length block = 16 ->
         aes_decrypt_block key (aes_encrypt_block key block) = block) ->
      (forall key msg, length (hmac_sha256 key msg) = 32) ->
      forall (CIPHER : Fernet) (env : entropy),
        Fernet_ok CIPHER -> entropy_ok env ->
        exists sealed i,
          encrypt aes_encrypt_block hmac_sha256 CIPHER env p = Ok sealed
          /\ i < 8 * length sealed
          /\ flip_bit i sealed <> sealed
          /\ decrypt aes_decrypt_block hmac_sha256 CIPHER (flip_bit i sealed)
             = Ok p.
Proof.
  exists demo_packet. intros E D H HE HD HH CIPHER env Hc Henv.
  now apply flipped_bit_accepted.
Qed.

(** The same on the stand-in primitives: bit 1 of character 97 turns the
    final [A] of the text into [C]. *)
Example flipped_bit_777 :
  nth 97 demo_sealed x00 = "A"%byte
  /\ nth 97 (flip_bit 777 demo_sealed) x00 = "C"%byte
  /\ decrypt xor_block_cipher fold_mac demo_cipher (flip_bit 777 demo_sealed)
     = Ok demo_packet.
Proof. vm_compute. repeat split. Qed.

(** A flip inside the tag: the text still decodes, and is rejected. *)
Example flipped_bit_in_tag :
  decrypt xor_block_cipher fold_mac demo_cipher (flip_bit 640 demo_sealed)
  = Raise InvalidToken.
Proof. vm_compute. reflexivity. Qed.

Lemma flipped_bit_rejected_outside_padding_witness :
  (decrypt xor_block_cipher fold_mac demo_cipher (flip_bit 777 demo_sealed)
   = Raise InvalidToken
   \/ (0 < padding demo_sealed
       /\ 777 / 8 + padding demo_sealed + 1 = length demo_sealed
       /\ skipn (S (777 / 8)) demo_sealed
          = repeat BASE64_PAD (padding demo_sealed)
       /\ urlsafe_b64decode (flip_bit 777 demo_sealed)
          = Ok (signed_parts xor_block_cipher fold_mac demo_cipher demo_env
                  demo_packet)
       /\ decrypt xor_block_cipher fold_mac demo_cipher
            (flip_bit 777 demo_sealed) = Ok demo_packet)
   \/ exists data,
        urlsafe_b64decode (flip_bit 777 demo_sealed) = Ok data
        /\ data <> signed_parts xor_block_cipher fold_mac demo_cipher demo_env
                   demo_packet
        /\ fold_mac (_signing_key demo_cipher) (drop_last 32 data)
           = take_last 32 data)
  /\ (forall tag',
        urlsafe_b64decode (flip_bit 777 demo_sealed)
        = Ok (basic_parts xor_block_cipher demo_cipher demo_env demo_packet ++ tag') ->
        length tag' = 32 ->
        tag' <> fold_mac (_signing_key demo_cipher)
                  (basic_parts xor_block_cipher demo_cipher demo_env demo_packet) ->
        decrypt xor_block_cipher fold_mac demo_cipher (flip_bit 777 demo_sealed)
        = Raise InvalidToken).
Proof.
  apply (@flipped_bit_rejected_outside_padding
           xor_block_cipher xor_block_cipher fold_mac
           xor_block_cipher_length xor_block_cipher_inverse fold_mac_length
           demo_cipher demo_cipher_ok demo_env demo_packet demo_sealed 777
           demo_env_ok demo_sealed_encrypt).
  vm_compute. lia.
Defined.

(** ** The relay *)

Section RelayFacts.

Variable aes_encrypt_block : bytes -> bytes -> bytes.
Variable aes_decrypt_block : bytes -> bytes -> bytes.
Variable hmac_sha256 : bytes -> bytes -> bytes.
Variable CIPHER : Fernet.

Local Abbreviation read_tap_ := (read_tap aes_encrypt_block hmac_sha256 CIPHER).
Local Abbreviation read_socket_ := (read_socket aes_decrypt_block hmac_sha256 CIPHER).
Local Abbreviation step_ :=
  (step aes_encrypt_block aes_decrypt_block hmac_sha256 CIPHER).
Local Abbreviation run_ :=
  (run aes_encrypt_block aes_decrypt_block hmac_sha256 CIPHER).
Local Abbreviation sealed_of_ := (sealed_of aes_encrypt_block hmac_sha256 CIPHER).
Local Abbreviation opened_of_ := (opened_of aes_decrypt_block hmac_sha256 CIPHER).

(** *** A thread that raised is gone *)

Lemma read_tap_raised_stuck (t : read_tap_thread) (e : exn) (ev : tap_event) :
  tap_pc t = read_tap_raised e -> read_tap_ t ev = None.
Proof. intros H. unfold read_tap. rewrite H. now destruct ev. Qed.

Lemma read_socket_raised_stuck (t : read_socket_thread) (e : exn) (ev : sock_event) :
  sock_pc t = read_socket_raised e -> read_socket_ t ev = None.
Proof. intros H. unfold read_socket. rewrite H. now destruct ev. Qed.

Lemma run_pump_a_raised (r r' : relay) (e : exn) (evs : list event) :
  tap_pc (pump_a r) = read_tap_raised e ->
  run_ r evs = Some r' -> pump_a r' = pump_a r.
Proof.
  revert r. induction evs as [|ev evs IH]; intros r He Hrun; cbn [run] in Hrun.
  - congruence.
  - destruct ev as [ev|ev]; cbn [step] in Hrun.
    + now rewrite (read_tap_raised_stuck _ ev He) in Hrun.
    + destruct (read_socket_ (pump_b r) ev) as [b|]; [|discriminate].
      apply IH in Hrun; [exact Hrun | exact He].
Qed.

Lemma run_pump_b_raised (r r' : relay) (e : exn) (evs : list event) :
  sock_pc (pump_b r) = read_socket_raised e ->
  run_ r evs = Some r' -> pump_b r' = pump_b r.
Proof.
  revert r. induction evs as [|ev evs IH]; intros r He Hrun; cbn [run] in Hrun.
  - congruence.
  - destruct ev as [ev|ev]; cbn [step] in Hrun.
    + destruct (read_tap_ (pump_a r) ev) as [a|]; [|discriminate].
      apply IH in Hrun; [exact Hrun | exact He].
    + now rewrite (read_socket_raised_stuck _ ev He) in Hrun.
Qed.

(** *** Each thread's output is its input through the codec *)

Lemma read_tap_sent (t t' : read_tap_thread) (ev : tap_event) :
  read_tap_ t ev = Some t' ->
  sent t = flat_map sealed_of_ (tap_packets t) ->
  sent t' = flat_map sealed_of_ (tap_packets t').
Proof.
  unfold read_tap. intros H Hinv.
  destruct (tap_pc t) as [|enc0|e0], ev as [[[hr packet]|e] env|[n|e]];
    try discriminate; cbn [snd] in H.
  - destruct (length packet <=? bufsize); [|discriminate].
    destruct (encrypt _ _ _ env packet) as [encrypted|e] eqn:E;
      injection H as <-; cbn [sent tap_packets];
      rewrite flat_map_app, <- Hinv; cbn [flat_map];
      unfold sealed_of; cbn [fst snd]; rewrite E;
      now rewrite ?app_nil_r.
  - injection H as <-. exact Hinv.
  - injection H as <-. exact Hinv.
  - injection H as <-. exact Hinv.
Qed.

Lemma read_socket_written (t t' : read_socket_thread) (ev : sock_event) :
  read_socket_ t ev = Some t' ->
  written t = flat_map opened_of_ (datagrams t) ->
  written t' = flat_map opened_of_ (datagrams t').
Proof.
  unfold read_socket. intros H Hinv.
  destruct (sock_pc t) as [|dec0|e0], ev as [[[data addr]|e]|[n|e]];
    try discriminate; cbn [fst] in H.
  - destruct (length data <=? bufsize); [|discriminate].
    destruct (decrypt _ _ _ data) as [decrypted|e] eqn:E;
      injection H as <-; cbn [written datagrams];
      rewrite flat_map_app, <- Hinv; cbn [flat_map];
      unfold opened_of; cbn [fst snd]; rewrite E;
      now rewrite ?app_nil_r.
  - injection H as <-. exact Hinv.
  - injection H as <-. exact Hinv.
  - injection H as <-. exact Hinv.
Qed.

Local Abbreviation through_codec_ :=
  (through_codec aes_encrypt_block aes_decrypt_block hmac_sha256 CIPHER).

Lemma step_through_codec (r r' : relay) (ev : event) :
  step_ r ev = Some r' -> through_codec_ r -> through_codec_ r'.
Proof.
  intros H [Ha Hb]. destruct ev as [ev|ev]; cbn [step] in H.
  - destruct (read_tap_ (pump_a r) ev) as [a|] eqn:E; [|discriminate].
    injection H as <-. split; cbn [pump_a pump_b]; [|exact Hb].
    eapply read_tap_sent; eassumption.
  - destruct (read_socket_ (pump_b r) ev) as [b|] eqn:E; [|discriminate].
    injection H as <-. split; cbn [pump_a pump_b]; [exact Ha|].
    eapply read_socket_written; eassumption.
Qed.

Lemma run_through_codec (r r' : relay) (evs : list event) :
  run_ r evs = Some r' -> through_codec_ r -> through_codec_ r'.
Proof.
  revert r. induction evs as [|ev evs IH]; intros r H Hinv; cbn [run] in H.
  - congruence.
  - destruct (step_ r ev) as [r1|] eqn:E; [|discriminate].
    eapply IH; [eassumption | eapply step_through_codec; eassumption].
Qed.

Lemma started_through_codec : through_codec_ started.
Proof. split; reflexivity. Qed.

(** Name the state a step has led to, so that it is not unfolded. *)
Ltac pin_state :=
  match goal with
  | |- context [run _ _ _ _ ?x _] => let r' := fresh "r'" in set (r' := x)
  end.

(** *** The claims on the relay *)

(** C5.  In every reachable state of the relay, the payloads handed to
    [sock.sendto] are, one for one and in order, the outputs of [encrypt]
    on the packets read from the device, and the payloads handed to
    [WriteFile] are, one for one and in order, the outputs of the
    successful [decrypt] calls on the datagrams received: each payload
    sent has a packet read from the device that [encrypt] sealed into it,
    each payload written has a received datagram that [decrypt] opened
    into it, and nothing else is sent or written. *)
Theorem codec_never_bypassed (r : relay) :
  reachable aes_encrypt_block aes_decrypt_block hmac_sha256 CIPHER r ->
  through_codec aes_encrypt_block aes_decrypt_block hmac_sha256 CIPHER r
  /\ (forall payload addr,
        In (payload, addr) (sent (pump_a r)) ->
        addr = (PROXY_IP, PROXY_PORT)
        /\ exists packet env,
             In (packet, env) (tap_packets (pump_a r))
             /\ encrypt aes_encrypt_block hmac_sha256 CIPHER env packet
                = Ok payload)
  /\ (forall payload,
        In payload (written (pump_b r)) ->
        exists data addr,
          In (data, addr) (datagrams (pump_b r))
          /\ decrypt aes_decrypt_block hmac_sha256 CIPHER data = Ok payload).
Proof.
  intros [evs Hrun].
  pose proof (run_through_codec _ Hrun started_through_codec) as Hinv.
  split; [exact Hinv|]. destruct Hinv as [Ha Hb]. split.
  - intros payload addr Hin. rewrite Ha in Hin.
    apply in_flat_map in Hin. destruct Hin as ([packet env] & Hp & Hs).
    unfold sealed_of in Hs. cbn [fst snd] in Hs.
    destruct (encrypt _ _ _ env packet) as [encrypted|e] eqn:E;
      [|contradiction].
    destruct Hs as [Hs|[]]. injection Hs as <- <-.
    split; [reflexivity|]. now exists packet, env.
  - intros payload Hin. rewrite Hb in Hin.
    apply in_flat_map in Hin. destruct Hin as ([data addr] & Hd & Ho).
    unfold opened_of in Ho. cbn [fst] in Ho.
    destruct (decrypt _ _ _ data) as [decrypted|e] eqn:E; [|contradiction].
    destruct Ho as [Ho|[]]. subst payload. now exists data, addr.
Qed.

(** C1, amended.  When [decrypt] raises on a received datagram, pump B
    writes nothing to the device for it, and nothing catches the
    exception: the thread of [read_socket] ends there, pump B is STOPPED
    and stays so whatever arrives later, and pump A is left as it was. *)
Theorem undecryptable_datagram_stops_read_socket
        (r : relay) (data : bytes) (addr : address) (e : exn) :
  sock_pc (pump_b r) = in_recvfrom ->
  length data <= bufsize ->
  decrypt aes_decrypt_block hmac_sha256 CIPHER data = Raise e ->
  exists r',
    step aes_encrypt_block aes_decrypt_block hmac_sha256 CIPHER r
      (to_read_socket (recvfrom_returns (Ok (data, addr)))) = Some r'
    /\ sock_pc (pump_b r') = read_socket_raised e
    /\ status_b (pump_b r') = STOPPED
    /\ written (pump_b r') = written (pump_b r)
    /\ pump_a r' = pump_a r
    /\ forall evs r'',
         run aes_encrypt_block aes_decrypt_block hmac_sha256 CIPHER r' evs
         = Some r'' ->
         pump_b r'' = pump_b r'.
Proof.
  intros Hpc Hlen Hdec. cbn [step]. unfold read_socket.
  rewrite Hpc. cbn [fst].
  apply Nat.leb_le in Hlen. rewrite Hlen, Hdec.
  eexists. split; [reflexivity|]. pin_state.
  repeat split.
  intros evs r'' Hrun. eapply run_pump_b_raised; [|exact Hrun]. reflexivity.
Qed.

(** C3, amended.  When [sock.sendto] raises, nothing catches the
    exception: the thread of [read_tap] ends there, pump A is STOPPED and
    never reads the device again, and pump B is left as it was. *)
Theorem sendto_failure_stops_read_tap
        (r : relay) (encrypted : bytes) (e : exn) :
  tap_pc (pump_a r) = in_sendto encrypted ->
  exists r',
    step aes_encrypt_block aes_decrypt_block hmac_sha256 CIPHER r
      (to_read_tap (sendto_returns (Raise e))) = Some r'
    /\ tap_pc (pump_a r') = read_tap_raised e
    /\ status_a (pump_a r') = STOPPED
    /\ tap_packets (pump_a r') = tap_packets (pump_a r)
    /\ pump_b r' = pump_b r
    /\ forall evs r'',
         run aes_encrypt_block aes_decrypt_block hmac_sha256 CIPHER r' evs
         = Some r'' ->
         pump_a r'' = pump_a r'.
Proof.
  intros Hpc. cbn [step]. unfold read_tap. rewrite Hpc.
  eexists. split; [reflexivity|]. pin_state.
  repeat split.
  intros evs r'' Hrun. eapply run_pump_a_raised; [|exact Hrun]. reflexivity.
Qed.

(** A thread goes from RUNNING to STOPPED only when one of its own calls
    raises: a call on the device, on the socket, or on the codec. *)
Lemma read_tap_stops (t t' : read_tap_thread) (answer : tap_event) :
  read_tap_ t answer = Some t' ->
  status_a t = RUNNING -> status_a t' = STOPPED ->
  exists e,
    tap_pc t' = read_tap_raised e
    /\ ((exists env, answer = ReadFile_returns (Raise e) env)
        \/ (exists hr_packet env,
              answer = ReadFile_returns (Ok hr_packet) env
              /\ encrypt aes_encrypt_block hmac_sha256 CIPHER env (snd hr_packet)
                 = Raise e)
        \/ answer = sendto_returns (Raise e)).
Proof.
  unfold read_tap, status_a. intros H Hrun Hstop.
  destruct (tap_pc t) as [|encrypted|e0]; [| |discriminate];
    destruct answer as [[hr_packet|e] env|[n|e]]; try discriminate.
  - destruct (length (snd hr_packet) <=? bufsize); [|discriminate].
    destruct (encrypt _ _ _ _ _) as [encrypted|e] eqn:E;
      injection H as Ht; subst t';
      cbn [tap_pc] in *; [discriminate|].
    exists e. split; [reflexivity|]. right. left. now exists hr_packet, env.
  - injection H as Ht. subst t'.
    exists e. split; [reflexivity|]. left. now exists env.
  - injection H as Ht. subst t'.
    cbn [tap_pc] in Hstop. discriminate.
  - injection H as Ht. subst t'.
    exists e. split; [reflexivity|]. now right; right.
Qed.

Lemma read_socket_stops (t t' : read_socket_thread) (answer : sock_event) :
  read_socket_ t answer = Some t' ->
  status_b t = RUNNING -> status_b t' = STOPPED ->
  exists e,
    sock_pc t' = read_socket_raised e
    /\ (answer = recvfrom_returns (Raise e)
        \/ (exists data_addr,
              answer = recvfrom_returns (Ok data_addr)
              /\ decrypt aes_decrypt_block hmac_sha256 CIPHER (fst data_addr)
                 = Raise e)
        \/ answer = WriteFile_returns (Raise e)).
Proof.
  unfold read_socket, status_b. intros H Hrun Hstop.
  destruct (sock_pc t) as [|decrypted|e0]; [| |discriminate];
    destruct answer as [[data_addr|e]|[n|e]]; try discriminate.
  - destruct (length (fst data_addr) <=? bufsize); [|discriminate].
    destruct (decrypt _ _ _ _) as [decrypted|e] eqn:E;
      injection H as Ht; subst t';
      cbn [sock_pc] in *; [discriminate|].
    exists e. split; [reflexivity|]. right. left. now exists data_addr.
  - injection H as Ht. subst t'.
    exists e. split; [reflexivity|]. now left.
  - injection H as Ht. subst t'.
    cbn [sock_pc] in Hstop. discriminate.
  - injection H as Ht. subst t'.
    exists e. split; [reflexivity|]. now right; right.
Qed.

(** C4, amended.  A device error stops the pump whose call raised it, for
    good, and leaves the other pump exactly as it was: when [ReadFile]
    raises, pump A is STOPPED and pump B untouched; when [WriteFile]
    raises, pump B is STOPPED and pump A untouched.  A pump stops only
    when a call of its own raises: a step of the relay that takes a pump
    from RUNNING to STOPPED is the answer to that pump's pending call, and
    that call, or the codec call made on what it returned, raised. *)
Theorem device_error_stops_its_own_pump (r : relay) (code : N) (env : entropy) :
  (tap_pc (pump_a r) = in_ReadFile ->
   exists r',
     step aes_encrypt_block aes_decrypt_block hmac_sha256 CIPHER r
       (to_read_tap (ReadFile_returns (Raise (pywintypes_error code)) env))
     = Some r'
     /\ status_a (pump_a r') = STOPPED
     /\ pump_b r' = pump_b r
     /\ forall evs r'',
          run aes_encrypt_block aes_decrypt_block hmac_sha256 CIPHER r' evs
          = Some r'' ->
          pump_a r'' = pump_a r')
  /\ (forall decrypted,
        sock_pc (pump_b r) = in_WriteFile decrypted ->
        exists r',
          step aes_encrypt_block aes_decrypt_block hmac_sha256 CIPHER r
            (to_read_socket (WriteFile_returns (Raise (pywintypes_error code))))
          = Some r'
          /\ status_b (pump_b r') = STOPPED
          /\ pump_a r' = pump_a r
          /\ forall evs r'',
               run aes_encrypt_block aes_decrypt_block hmac_sha256 CIPHER r' evs
               = Some r'' ->
               pump_b r'' = pump_b r')
  /\ (forall ev r',
        step aes_encrypt_block aes_decrypt_block hmac_sha256 CIPHER r ev
        = Some r' ->
        (status_a (pump_a r) = RUNNING -> status_a (pump_a r') = STOPPED ->
         exists answer e,
           ev = to_read_tap answer
           /\ tap_pc (pump_a r') = read_tap_raised e
           /\ ((exists env', answer = ReadFile_returns (Raise e) env')
               \/ (exists hr_packet env',
                     answer = ReadFile_returns (Ok hr_packet) env'
                     /\ encrypt aes_encrypt_block hmac_sha256 CIPHER env'
                          (snd hr_packet) = Raise e)
               \/ answer = sendto_returns (Raise e)))
        /\ (status_b (pump_b r) = RUNNING -> status_b (pump_b r') = STOPPED ->
            exists answer e,
              ev = to_read_socket answer
              /\ sock_pc (pump_b r') = read_socket_raised e
              /\ (answer = recvfrom_returns (Raise e)
                  \/ (exists data_addr,
                        answer = recvfrom_returns (Ok data_addr)
                        /\ decrypt aes_decrypt_block hmac_sha256 CIPHER
                             (fst data_addr) = Raise e)
                  \/ answer = WriteFile_returns (Raise e)))).
Proof.
  split; [|split].
  - intros Hpc. cbn [step]. unfold read_tap. rewrite Hpc.
    eexists. split; [reflexivity|]. pin_state.
    repeat split.
    intros evs r'' Hrun. eapply run_pump_a_raised; [|exact Hrun]. reflexivity.
  - intros decrypted Hpc. cbn [step]. unfold read_socket. rewrite Hpc.
    eexists. split; [reflexivity|]. pin_state.
    repeat split.
    intros evs r'' Hrun. eapply run_pump_b_raised; [|exact Hrun]. reflexivity.
  - intros ev r' Hstep. destruct ev as [answer|answer]; cbn [step] in Hstep.
    + destruct (read_tap_ (pump_a r) answer) as [a|] eqn:E; [|discriminate].
      assert (Hr : r' = {| pump_a := a; pump_b := pump_b r |})
        by (symmetry; congruence).
      subst r'. cbn [pump_a pump_b]. split.
      * intros Hrun Hstop.
        destruct (read_tap_stops _ _ E Hrun Hstop) as (e & Hpc & Hwhy).
        now exists answer, e.
      * intros Hrun Hstop. congruence.
    + destruct (read_socket_ (pump_b r) answer) as [b|] eqn:E; [|discriminate].
      assert (Hr : r' = {| pump_a := pump_a r; pump_b := b |})
        by (symmetry; congruence).
      subst r'. cbn [pump_a pump_b]. split.
      * intros Hrun Hstop. congruence.
      * intros Hrun Hstop.
        destruct (read_socket_stops _ _ E Hrun Hstop) as (e & Hpc & Hwhy).
        now exists answer, e.
Qed.

(** *** The sender of a datagram *)

Lemma step_set_sender (a : address) (r1 r2 : relay) (ev : event) :
  observable r1 = observable r2 ->
  match step_ r1 ev, step_ r2 (set_sender a ev) with
  | Some r1', Some r2' => observable r1' = observable r2'
  | None, None => True
  | _, _ => False
  end.
Proof.
  unfold observable. intros H. injection H as Ha Hpc Hw.
  destruct ev as [ev|ev]; cbn [set_sender step].
  - rewrite <- Ha.
    destruct (read_tap_ (pump_a r1) ev); cbn [pump_a pump_b];
      [congruence | exact I].
  - unfold read_socket.
    destruct ev as [[[data addr]|e]|[n|e]]; cbn [step];
      unfold read_socket; rewrite <- Hpc;
      destruct (sock_pc (pump_b r1)); cbn [fst]; try exact I;
      try (cbn [pump_a pump_b sock_pc written]; congruence).
    destruct (length data <=? bufsize); [|exact I].
    destruct (decrypt _ _ _ data);
      cbn [pump_a pump_b sock_pc written]; congruence.
Qed.

Lemma run_set_sender (a : address) (evs : list event) (r1 r2 : relay) :
  observable r1 = observable r2 ->
  option_map observable (run_ r1 evs)
  = option_map observable (run_ r2 (map (set_sender a) evs)).
Proof.
  revert r1 r2. induction evs as [|ev evs IH]; intros r1 r2 H.
  - cbn. now rewrite H.
  - cbn [map run]. pose proof (step_set_sender a ev H) as Hs.
    destruct (step_ r1 ev), (step_ r2 (set_sender a ev));
      try contradiction; [now apply IH | reflexivity].
Qed.

(** C9.  Pump B does not look at the sender of a datagram.  One step:
    two datagrams with the same payload and different senders lead to the
    same [decrypt], the same [WriteFile] (or the same end of the thread).
    Whole runs: had every datagram come from one address [a], the
    configured peer or any other, pump A, the position of pump B and
    everything written to the device would be the same. *)
Theorem sender_address_ignored :
  (forall (t : read_socket_thread) (data : bytes) (a1 a2 : address),
     option_map (fun t' => (sock_pc t', written t'))
       (read_socket aes_decrypt_block hmac_sha256 CIPHER t
          (recvfrom_returns (Ok (data, a1))))
     = option_map (fun t' => (sock_pc t', written t'))
         (read_socket aes_decrypt_block hmac_sha256 CIPHER t
            (recvfrom_returns (Ok (data, a2)))))
  /\ (forall (a : address) (evs : list event),
        option_map observable
          (run aes_encrypt_block aes_decrypt_block hmac_sha256 CIPHER
             started evs)
        = option_map observable
            (run aes_encrypt_block aes_decrypt_block hmac_sha256 CIPHER
               started (map (set_sender a) evs))).
Proof.
  split.
  - intros t data a1 a2. unfold read_socket. cbn [fst].
    destruct (sock_pc t); try reflexivity.
    destruct (length data <=? bufsize); [|reflexivity].
    destruct (decrypt _ _ _ data); reflexivity.
  - intros a evs. now apply run_set_sender.
Qed.

End RelayFacts.

(** *** The claims on the relay, on sample runs *)

Lemma forged_rejected (aes_decrypt_block hmac_sha256 : bytes -> bytes -> bytes)
      (CIPHER : Fernet) :
  decrypt aes_decrypt_block hmac_sha256 CIPHER forged = Raise InvalidToken.
Proof. reflexivity. Qed.

(** C1 as stated fails: a datagram that is no token ends pump B, under any
    key, whoever sent it. *)
Lemma forged_datagram_stops_read_socket :
  exists data : bytes,
    forall (aes_encrypt_block aes_decrypt_block hmac_sha256
              : bytes -> bytes -> bytes) (CIPHER : Fernet) (addr : address),
      decrypt aes_decrypt_block hmac_sha256 CIPHER data = Raise InvalidToken
      /\ exists r,
           run aes_encrypt_block aes_decrypt_block hmac_sha256 CIPHER started
             [to_read_socket (recvfrom_returns (Ok (data, addr)))] = Some r
           /\ sock_pc (pump_b r) = read_socket_raised InvalidToken
           /\ status_b (pump_b r) = STOPPED.
Proof.
  exists forged. intros E D H CIPHER addr.
  split; [apply forged_rejected|].
  eexists. split; [reflexivity|]. split; reflexivity.
Qed.

Lemma undecryptable_datagram_stops_read_socket_witness :
  exists r',
    step xor_block_cipher xor_block_cipher fold_mac demo_cipher started
      (to_read_socket (recvfrom_returns (Ok (forged, demo_addr)))) = Some r'
    /\ sock_pc (pump_b r') = read_socket_raised InvalidToken
    /\ status_b (pump_b r') = STOPPED
    /\ written (pump_b r') = written (pump_b started)
    /\ pump_a r' = pump_a started
    /\ forall evs r'',
         run xor_block_cipher xor_block_cipher fold_mac demo_cipher r' evs
         = Some r'' ->
         pump_b r'' = pump_b r'.
Proof.
  apply (@undecryptable_datagram_stops_read_socket
           xor_block_cipher xor_block_cipher fold_mac demo_cipher
           started forged demo_addr InvalidToken).
  - reflexivity.
  - unfold bufsize, forged. simpl. lia.
  - apply forged_rejected.
Defined.

(** C3 as stated fails: one unreachable peer ends pump A, under any key. *)
Lemma unreachable_peer_stops_read_tap :
  exists evs : list event,
    forall (aes_encrypt_block aes_decrypt_block hmac_sha256
              : bytes -> bytes -> bytes) (CIPHER : Fernet),
      Fernet_ok CIPHER ->
      exists r,
        run aes_encrypt_block aes_decrypt_block hmac_sha256 CIPHER started evs
        = Some r
        /\ tap_pc (pump_a r) = read_tap_raised (OSError 10065)
        /\ status_a (pump_a r) = STOPPED.
Proof.
  exists peer_unreachable. intros E D H CIPHER Hc.
  unfold peer_unreachable. cbn [run step]. unfold read_tap at 1.
  cbn [started pump_a tap_pc snd].
  change (length demo_packet <=? bufsize) with true. cbv iota.
  rewrite (encrypt_signed_parts E H Hc demo_packet demo_env_ok).
  eexists. split; [reflexivity|]. split; reflexivity.
Qed.

Lemma sendto_failure_stops_read_tap_witness :
  exists r',
    step xor_block_cipher xor_block_cipher fold_mac demo_cipher
      {| pump_a := {| tap_pc := in_sendto demo_sealed;
                      tap_packets := [(demo_packet, demo_env)];
                      sent := [(demo_sealed, (PROXY_IP, PROXY_PORT))] |};
         pump_b := pump_b started |}
      (to_read_tap (sendto_returns (Raise (OSError 10065)))) = Some r'
    /\ tap_pc (pump_a r') = read_tap_raised (OSError 10065)
    /\ status_a (pump_a r') = STOPPED
    /\ tap_packets (pump_a r') = [(demo_packet, demo_env)]
    /\ pump_b r' = pump_b started
    /\ forall evs r'',
         run xor_block_cipher xor_block_cipher fold_mac demo_cipher r' evs
         = Some r'' ->
         pump_a r'' = pump_a r'.
Proof.
  apply (@sendto_failure_stops_read_tap
           xor_block_cipher xor_block_cipher fold_mac demo_cipher
           {| pump_a := {| tap_pc := in_sendto demo_sealed;
                           tap_packets := [(demo_packet, demo_env)];
                           sent := [(demo_sealed, (PROXY_IP, PROXY_PORT))] |};
              pump_b := pump_b started |}
           demo_sealed (OSError 10065)).
  reflexivity.
Defined.

(** C4 as stated fails: the device handle is invalid when pump A reads it.
    Pump A ends; pump B is still RUNNING, waiting in [recvfrom], and the
    only thing that can move the relay from there is an answer to that
    [recvfrom]. *)
Lemma closed_device_leaves_read_socket_running :
  exists evs : list event,
    forall (aes_encrypt_block aes_decrypt_block hmac_sha256
              : bytes -> bytes -> bytes) (CIPHER : Fernet),
      exists r,
        run aes_encrypt_block aes_decrypt_block hmac_sha256 CIPHER started evs
        = Some r
        /\ tap_pc (pump_a r) = read_tap_raised (pywintypes_error 6)
        /\ status_a (pump_a r) = STOPPED
        /\ sock_pc (pump_b r) = in_recvfrom
        /\ status_b (pump_b r) = RUNNING
        /\ forall ev r',
             step aes_encrypt_block aes_decrypt_block hmac_sha256 CIPHER r ev
             = Some r' ->
             exists answer, ev = to_read_socket (recvfrom_returns answer).
Proof.
  exists device_closed. intros E D H CIPHER.
  eexists. split; [reflexivity|]. repeat split.
  intros [ev|ev] r' Hstep.
  - cbn in Hstep. destruct ev as [[?|?] ?|[?|?]]; discriminate.
  - destruct ev as [answer|[?|?]]; [now exists answer | discriminate ..].
Qed.

Lemma device_error_stops_its_own_pump_witness :
  (exists r',
     step xor_block_cipher xor_block_cipher fold_mac demo_cipher started
       (to_read_tap (ReadFile_returns (Raise (pywintypes_error 6)) demo_env))
     = Some r'
     /\ status_a (pump_a r') = STOPPED
     /\ pump_b r' = pump_b started
     /\ forall evs r'',
          run xor_block_cipher xor_block_cipher fold_mac demo_cipher r' evs
          = Some r'' ->
          pump_a r'' = pump_a r')
  /\ (exists r',
        step xor_block_cipher xor_block_cipher fold_mac demo_cipher
          {| pump_a := pump_a started;
             pump_b := {| sock_pc := in_WriteFile demo_packet;
                          datagrams := [(demo_sealed, demo_addr)];
                          written := [demo_packet] |} |}
          (to_read_socket (WriteFile_returns (Raise (pywintypes_error 6))))
        = Some r'
        /\ status_b (pump_b r') = STOPPED
        /\ pump_a r' = pump_a started
        /\ forall evs r'',
             run xor_block_cipher xor_block_cipher fold_mac demo_cipher r' evs
             = Some r'' ->
             pump_b r'' = pump_b r')
  /\ (exists answer e,
        to_read_socket (recvfrom_returns (Ok (forged, demo_addr)))
        = to_read_socket answer
        /\ read_socket_raised InvalidToken = read_socket_raised e
        /\ (answer = recvfrom_returns (Raise e)
            \/ (exists data_addr,
                  answer = recvfrom_returns (Ok data_addr)
                  /\ decrypt xor_block_cipher fold_mac demo_cipher (fst data_addr)
                     = Raise e)
            \/ answer = WriteFile_returns (Raise e))).
Proof.
  split; [|split].
  - apply (proj1 (@device_error_stops_its_own_pump
                    xor_block_cipher xor_block_cipher fold_mac demo_cipher
                    started 6%N demo_env)).
    reflexivity.
  - apply (proj1 (proj2 (@device_error_stops_its_own_pump
                           xor_block_cipher xor_block_cipher fold_mac demo_cipher
                           {| pump_a := pump_a started;
                              pump_b := {| sock_pc := in_WriteFile demo_packet;
                                           datagrams := [(demo_sealed, demo_addr)];
                                           written := [demo_packet] |} |}
                           6%N demo_env)) demo_packet).
    reflexivity.
  - apply (proj2 (proj2 (proj2 (@device_error_stops_its_own_pump
                                  xor_block_cipher xor_block_cipher fold_mac
                                  demo_cipher started 6%N demo_env))
                          (to_read_socket
                             (recvfrom_returns (Ok (forged, demo_addr))))
                          {| pump_a := pump_a started;
                             pump_b := {| sock_pc := read_socket_raised InvalidToken;
                                          datagrams := [(forged, demo_addr)];
                                          written := [] |} |}
                          eq_refl)).
    + reflexivity.
    + reflexivity.
Defined.

Lemma demo_relay_reachable :
  reachable xor_block_cipher xor_block_cipher fold_mac demo_cipher demo_relay.
Proof. exists demo_events. vm_compute. reflexivity. Qed.

Example demo_relay_wrote_the_packet :
  written (pump_b demo_relay) = [demo_packet]
  /\ map fst (sent (pump_a demo_relay)) = [demo_sealed].
Proof. vm_compute. split; reflexivity. Qed.

Lemma codec_never_bypassed_witness :
  through_codec xor_block_cipher xor_block_cipher fold_mac demo_cipher demo_relay
  /\ (forall payload addr,
        In (payload, addr) (sent (pump_a demo_relay)) ->
        addr = (PROXY_IP, PROXY_PORT)
        /\ exists packet env,
             In (packet, env) (tap_packets (pump_a demo_relay))
             /\ encrypt xor_block_cipher fold_mac demo_cipher env packet
                = Ok payload)
  /\ (forall payload,
        In payload (written (pump_b demo_relay)) ->
        exists data addr,
          In (data, addr) (datagrams (pump_b demo_relay))
          /\ decrypt xor_block_cipher fold_mac demo_cipher data = Ok payload).
Proof.
  exact (@codec_never_bypassed
           xor_block_cipher xor_block_cipher fold_mac demo_cipher
           demo_relay demo_relay_reachable).
Defined.


(** * Further properties of the codec *)

Module DecoderFacts.

(** How far the decoder is ahead of three bytes for four characters, by
    its position in the quad. *)
Definition slack (quad_pos : nat) : nat :=
  match quad_pos with
  | 0 => 0
  | 1 => 3
  | 2 => 2
  | _ => 1
  end.

(** The decoder writes at most three bytes for four characters read. *)
Lemma a2b_loop_length (ascii : bytes) (quad_pos : nat) (leftchar : N)
      (pads : nat) (out r : bytes) :
  a2b_loop ascii quad_pos leftchar pads out = Ok r ->
  4 * length r <= 4 * length out + 3 * length ascii + slack quad_pos.
Proof.
  revert quad_pos leftchar pads out.
  induction ascii as [|c ascii IH]; intros quad_pos leftchar pads out H;
    cbn [a2b_loop] in H.
  - destruct (quad_pos =? 0); [|discriminate].
    assert (r = out) by congruence. subst. lia.
  - cbn [length].
    destruct (Byte.eqb c BASE64_PAD).
    + destruct (2 <=? quad_pos).
      * destruct (4 <=? quad_pos + S pads).
        -- assert (r = out) by congruence. subst. lia.
        -- apply IH in H. lia.
      * apply IH in H. lia.
    + destruct (a2b c) as [v|].
      * destruct quad_pos as [|[|[|q]]]; apply IH in H;
          rewrite ?length_app in H; cbn [length slack] in *; lia.
      * apply IH in H. lia.
Qed.

Lemma urlsafe_b64decode_length (t data : bytes) :
  urlsafe_b64decode t = Ok data -> 4 * length data <= 3 * length t.
Proof.
  unfold urlsafe_b64decode, a2b_base64. intros H.
  apply a2b_loop_length in H.
  unfold translate in H. rewrite length_map in H.
  cbn [length slack] in H. lia.
Qed.

(** A skipped byte can be taken out of the text. *)
Lemma a2b_loop_skip (l1 l2 : bytes) (c : byte) (quad_pos : nat)
      (leftchar : N) (pads : nat) (out : bytes) :
  Byte.eqb c BASE64_PAD = false -> a2b c = None ->
  a2b_loop (l1 ++ c :: l2) quad_pos leftchar pads out
  = a2b_loop (l1 ++ l2) quad_pos leftchar pads out.
Proof.
  intros Hp Ha. revert quad_pos leftchar pads out.
  induction l1 as [|x l1 IH]; intros quad_pos leftchar pads out.
  - cbn [app a2b_loop]. now rewrite Hp, Ha.
  - cbn [app a2b_loop].
    destruct (Byte.eqb x BASE64_PAD).
    + destruct (2 <=? quad_pos); [|apply IH].
      destruct (4 <=? quad_pos + S pads); [reflexivity | apply IH].
    + destruct (a2b x) as [v|]; [|apply IH].
      destruct quad_pos as [|[|[|q]]]; apply IH.
Qed.

Lemma urlsafe_b64decode_skip (l1 junk l2 : bytes) :
  forallb outside_alphabet junk = true ->
  urlsafe_b64decode (l1 ++ junk ++ l2) = urlsafe_b64decode (l1 ++ l2).
Proof.
  induction junk as [|c junk IH]; intros H; [reflexivity|].
  cbn [forallb] in H. apply andb_true_iff in H. destruct H as [Hc Hj].
  rewrite <- (IH Hj).
  unfold outside_alphabet in Hc. apply andb_true_iff in Hc.
  destruct Hc as [Hp Ha]. apply negb_true_iff in Hp.
  unfold urlsafe_b64decode, a2b_base64, translate.
  cbn [app]. rewrite !map_app. cbn [map]. rewrite ?map_app.
  apply a2b_loop_skip; [exact Hp|].
  destruct (a2b (lookup c _urlsafe_decode_translation)); [discriminate|].
  reflexivity.
Qed.

(** Once a pad sequence has closed a short quad, nothing after it is read. *)
Lemma urlsafe_b64decode_tail1 (x : byte) (junk : bytes) :
  urlsafe_b64decode (urlsafe_b64encode [x] ++ junk) = Ok [x].
Proof.
  unfold urlsafe_b64decode, a2b_base64.
  unfold translate at 1. rewrite map_app.
  change (map (fun c => lookup c _urlsafe_decode_translation) (urlsafe_b64encode [x]))
    with (translate _urlsafe_decode_translation (urlsafe_b64encode [x])).
  rewrite translate_b2a_base64. apply (a2b_loop_tail1 x _ []).
Qed.

Lemma urlsafe_b64decode_tail2 (x y : byte) (junk : bytes) :
  urlsafe_b64decode (urlsafe_b64encode [x; y] ++ junk) = Ok [x; y].
Proof.
  unfold urlsafe_b64decode, a2b_base64.
  unfold translate at 1. rewrite map_app.
  change (map (fun c => lookup c _urlsafe_decode_translation) (urlsafe_b64encode [x; y]))
    with (translate _urlsafe_decode_translation (urlsafe_b64encode [x; y])).
  rewrite translate_b2a_base64. apply (a2b_loop_tail2 x y _ []).
Qed.

(** A byte string is whole triples followed by zero, one or two bytes. *)
Lemma split_triples (bin : bytes) :
  exists pre tail,
    bin = pre ++ tail /\ length pre mod 3 = 0
    /\ length tail = length bin mod 3.
Proof.
  induction bin as [| x | x y | x y z l IH] using list_ind3.
  - exists [], []. repeat split.
  - exists [], [x]. repeat split.
  - exists [], [x; y]. repeat split.
  - destruct IH as (pre & tail & -> & Hp & Ht).
    exists (x :: y :: z :: pre), tail. split; [reflexivity|].
    cbn [length]. rewrite !mod3_SSS. split; [exact Hp | exact Ht].
Qed.

(** Text whose encoding ends in padding decodes the same with anything
    appended. *)
Lemma urlsafe_b64decode_trailing (bin junk : bytes) :
  length bin mod 3 <> 0 ->
  urlsafe_b64decode (urlsafe_b64encode bin ++ junk) = Ok bin.
Proof.
  intros H. destruct (split_triples bin) as (pre & tail & -> & Hp & Ht).
  rewrite length_app in *.
  assert (Hm : (length pre + length tail) mod 3 = length tail mod 3).
  { rewrite Nat.Div0.add_mod, Hp, Nat.add_0_l, Nat.Div0.mod_mod. reflexivity. }
  rewrite Hm in *.
  assert (Hlt : length tail < 3).
  { rewrite Ht. apply Nat.mod_upper_bound. lia. }
  rewrite urlsafe_b64encode_app, <- app_assoc, urlsafe_b64decode_app by exact Hp.
  destruct tail as [|x [|y [|z tail]]]; cbn [length] in *.
  - exfalso. apply H. reflexivity.
  - now rewrite urlsafe_b64decode_tail1.
  - now rewrite urlsafe_b64decode_tail2.
  - lia.
Qed.

(** The encoder writes URL-safe characters only. *)
Lemma b2a_urlsafe_char (s : N) :
  urlsafe_char (lookup (b2a s) _urlsafe_encode_translation) = true.
Proof.
  destruct (N.lt_ge_cases s 64) as [Hs|Hs].
  - revert s Hs. apply sextet_forall. vm_compute. reflexivity.
  - rewrite (b2a_large Hs). reflexivity.
Qed.

Lemma urlsafe_b64encode_chars (bin : bytes) :
  forallb urlsafe_char (urlsafe_b64encode bin) = true.
Proof.
  unfold urlsafe_b64encode, translate.
  induction bin as [| x | x y | x y z l IH] using list_ind3;
    cbn [b2a_base64 map forallb]; rewrite ?b2a_urlsafe_char;
    try reflexivity.
  exact IH.
Qed.

(** [int.from_bytes] undoes [int.to_bytes]. *)
Lemma to_N_u8 (n : N) : Byte.to_N (u8 n) = (n mod 256)%N.
Proof.
  unfold u8. change 255%N with (N.ones 8). rewrite N.land_ones.
  change (2 ^ 8)%N with 256%N.
  destruct (Byte.of_N (n mod 256)) as [b|] eqn:E.
  - now apply Byte.to_of_N.
  - apply Byte.of_N_None_iff in E.
    pose proof (N.mod_upper_bound n 256). lia.
Qed.

Lemma from_bytes_big_app (l : bytes) (b : byte) :
  from_bytes_big (l ++ [b]) = (from_bytes_big l * 256 + Byte.to_N b)%N.
Proof. unfold from_bytes_big. now rewrite fold_left_app. Qed.

Lemma from_to_bytes_big (len : nat) (n : N) :
  from_bytes_big (to_bytes_big len n) = (n mod 256 ^ N.of_nat len)%N.
Proof.
  revert n. induction len as [|len IH]; intros n.
  - cbn. now rewrite N.mod_1_r.
  - cbn [to_bytes_big]. rewrite from_bytes_big_app, IH, to_N_u8.
    rewrite Nat2N.inj_succ, N.pow_succ_r'.
    rewrite N.shiftr_div_pow2. change (2 ^ 8)%N with 256%N.
    rewrite N.Div0.mod_mul_r. lia.
Qed.

End DecoderFacts.
Import DecoderFacts.

Lemma except_raise_Raise {A} (r : result A) (e0 e : exn) :
  except_raise r e0 = Raise e -> e = e0.
Proof. destruct r; cbn; congruence. Qed.

Lemma except_raise_Ok {A} (r : result A) (e0 : exn) (a : A) :
  except_raise r e0 = Ok a -> r = Ok a.
Proof. destruct r; cbn; congruence. Qed.

Lemma xor_bytes_length_le (a b : bytes) : length (xor_bytes a b) <= length b.
Proof.
  revert b. induction a as [|x a IH]; intros [|y b]; cbn; try lia.
  specialize (IH b). lia.
Qed.

Lemma unpad_length (padded p : bytes) :
  PKCS7.unpad padded = Ok p -> length p < length padded.
Proof.
  unfold PKCS7.unpad, PKCS7.check_padding.
  destruct (0 <? length padded) eqn:Hpos; cbn [andb]; [|discriminate].
  destruct (length padded mod PKCS7.block_size =? 0); [|discriminate].
  destruct (0 <? Byte.to_nat (last padded x00)) eqn:Hps; cbn [andb];
    [|discriminate].
  destruct (_ && _); [|discriminate].
  intros H. assert (E : p = drop_last (Byte.to_nat (last padded x00)) padded)
    by congruence.
  apply Nat.ltb_lt in Hpos, Hps. subst p. unfold drop_last.
  rewrite length_firstn. lia.
Qed.

Section DecryptFacts.

Variable aes_decrypt_block : bytes -> bytes -> bytes.
Variable hmac_sha256 : bytes -> bytes -> bytes.
Variable CIPHER : Fernet.

Local Abbreviation decrypt_ := (decrypt aes_decrypt_block hmac_sha256 CIPHER).

Lemma cbc_decrypt_blocks_length_le (key prev : bytes) (n : nat) (data : bytes) :
  length prev <= 16 ->
  length (cbc_decrypt_blocks aes_decrypt_block key prev n data) <= 16 * n.
Proof.
  revert prev data. induction n as [|n IH]; intros prev data Hp; [cbn; lia|].
  cbn [cbc_decrypt_blocks]. rewrite length_app.
  pose proof (xor_bytes_length_le (aes_decrypt_block key (firstn 16 data)) prev).
  assert (Hf : length (firstn 16 data) <= 16)
    by (rewrite length_firstn; lia).
  specialize (IH (firstn 16 data) (skipn 16 data) Hf). lia.
Qed.

(** What a successful [decrypt] has seen: text that decodes to at least a
    header, [k] blocks of ciphertext and a tag, and a plaintext that is
    shorter than those [k] blocks. *)
Lemma decrypt_Ok_inv (data p : bytes) :
  decrypt_ data = Ok p ->
  exists decoded k,
    urlsafe_b64decode data = Ok decoded
    /\ 57 + 16 * k <= length decoded
    /\ length p < 16 * k
    /\ hmac_sha256 (_signing_key CIPHER) (drop_last 32 decoded)
       = take_last 32 decoded.
Proof.
  unfold decrypt, Fernet_decrypt, _get_unverified_token_data.
  destruct (urlsafe_b64decode data) as [decoded|e]; cbn [except_raise bind];
    [|discriminate].
  destruct decoded as [|v rest]; [discriminate|].
  destruct (Byte.eqb v x80); cbn [negb]; [|discriminate].
  destruct (length (v :: rest) <? 9); cbn [bind fst snd]; [discriminate|].
  set (decoded := v :: rest).
  unfold _decrypt_data, _verify_signature.
  destruct (PyBytes.eqb _ _) eqn:Hmac; cbn [bind]; [|discriminate].
  apply eqb_eq in Hmac.
  destruct (Cipher _ _) as [[]|e]; cbn [bind]; [|discriminate].
  unfold cbc_decrypt.
  set (ct := slice 25 (length decoded - 32) decoded).
  destruct (length ct mod 16 =? 0) eqn:Hmod; cbn [except_raise bind];
    [|discriminate].
  intros H. apply except_raise_Ok, unpad_length in H.
  apply Nat.eqb_eq in Hmod.
  exists decoded, (length ct / 16). split; [reflexivity|].
  pose proof (Nat.div_mod_eq (length ct) 16) as Hdm. rewrite Hmod in Hdm.
  assert (Hct : length ct <= length decoded - 57).
  { unfold ct, slice. rewrite length_firstn, length_skipn. lia. }
  pose proof (cbc_decrypt_blocks_length_le (_encryption_key CIPHER)
                (slice 9 25 decoded) (length ct / 16) ct) as Hle.
  assert (Hiv : length (slice 9 25 decoded) <= 16)
    by (unfold slice; rewrite length_firstn; lia).
  specialize (Hle Hiv).
  split; [|split; [lia | exact Hmac]].
  assert (0 < length ct / 16) by lia. lia.
Qed.

(** The plaintext of a datagram that fits the receive buffer has at most
    3007 bytes. *)
Lemma decrypt_length_bound (data p : bytes) :
  decrypt_ data = Ok p -> length data <= bufsize -> length p <= 3007.
Proof.
  intros H Hlen.
  destruct (decrypt_Ok_inv _ H) as (decoded & k & Hdec & Hk & Hp & _).
  apply urlsafe_b64decode_length in Hdec. unfold bufsize in Hlen. lia.
Qed.

Lemma decrypt_short_datagram (data p : bytes) :
  length data < 98 -> decrypt_ data <> Ok p.
Proof.
  intros Hlen H.
  destruct (decrypt_Ok_inv _ H) as (decoded & k & Hdec & Hk & Hp & _).
  apply urlsafe_b64decode_length in Hdec. lia.
Qed.

Hypothesis hmac_length : forall key msg, length (hmac_sha256 key msg) = 32.
Hypothesis CIPHER_ok : Fernet_ok CIPHER.

(** Whatever [decrypt] raises is [InvalidToken]: the [ValueError] of a
    cipher built on a short IV cannot happen once the tag has verified. *)
Lemma decrypt_Raise_inv (data : bytes) (e : exn) :
  decrypt_ data = Raise e -> e = InvalidToken.
Proof.
  unfold decrypt, Fernet_decrypt, _get_unverified_token_data.
  destruct (urlsafe_b64decode data) as [decoded|e0]; cbn [except_raise bind];
    [|now intros [= <-]].
  destruct decoded as [|v rest]; [now intros [= <-]|].
  destruct (Byte.eqb v x80); cbn [negb]; [|now intros [= <-]].
  destruct (length (v :: rest) <? 9); cbn [bind fst snd]; [now intros [= <-]|].
  set (decoded := v :: rest).
  unfold _decrypt_data, _verify_signature.
  destruct (PyBytes.eqb _ _) eqn:Hmac; cbn [bind]; [|now intros [= <-]].
  apply eqb_eq in Hmac.
  assert (Hlen : 32 <= length decoded).
  { pose proof (hmac_length (_signing_key CIPHER) (drop_last 32 decoded)) as Hl.
    rewrite Hmac in Hl. unfold take_last in Hl.
    rewrite length_skipn in Hl. lia. }
  assert (Hiv : length (slice 9 25 decoded) = 16).
  { unfold slice. rewrite length_firstn, length_skipn. lia. }
  destruct CIPHER_ok as [_ Hk].
  unfold Cipher. rewrite Hk, Hiv. cbn [Nat.eqb orb bind].
  destruct (except_raise (cbc_decrypt _ _ _ _) InvalidToken) as [pp|e1] eqn:E;
    cbn [bind].
  - intros H. now apply except_raise_Raise in H.
  - intros H. apply except_raise_Raise in E. congruence.
Qed.

End DecryptFacts.

(** X1.  [CIPHER = Fernet(KEY)]: [Fernet] accepts the URL-safe base64 of
    raw key material exactly when that material has 32 bytes, and its
    signing and encryption keys are then the first and the second half.
    For the 32 bytes that [generate_key] draws, [KEY] is 44 characters
    long and [CIPHER] holds two 128-bit keys. *)
Theorem CIPHER_from_KEY (urandom32 : bytes) :
  Fernet_init (KEY urandom32)
  = (if length urandom32 =? 32
     then Ok {| _signing_key := firstn 16 urandom32;
                _encryption_key := skipn 16 urandom32 |}
     else Raise ValueError)
  /\ (length urandom32 = 32 ->
      length (KEY urandom32) = 44
      /\ Fernet_ok {| _signing_key := firstn 16 urandom32;
                      _encryption_key := skipn 16 urandom32 |}).
Proof.
  unfold Fernet_init, KEY, generate_key.
  rewrite urlsafe_b64decode_encode. cbn [except_raise bind].
  split; [reflexivity|]. intros H. split.
  - rewrite urlsafe_b64encode_length, H. reflexivity.
  - unfold Fernet_ok. cbn [_signing_key _encryption_key].
    rewrite length_firstn, length_skipn. lia.
Qed.

Lemma sealed_length_range (n : nat) :
  n <= bufsize ->
  100 <= sealed_length n <= 4 * 1390 /\ sealed_length n mod 4 = 0.
Proof.
  unfold sealed_length, bufsize. intros Hn. split.
  - pose proof (Nat.div_mod_eq n 16).
    pose proof (Nat.mod_upper_bound n 16).
    pose proof (Nat.div_mod_eq (57 + 16 * (n / 16 + 1) + 2) 3).
    pose proof (Nat.mod_upper_bound (57 + 16 * (n / 16 + 1) + 2) 3).
    lia.
  - rewrite Nat.mul_comm. apply Nat.Div0.mod_mul.
Qed.

Section CodecExtras.

Variable aes_encrypt_block : bytes -> bytes -> bytes.
Variable aes_decrypt_block : bytes -> bytes -> bytes.
Variable hmac_sha256 : bytes -> bytes -> bytes.

Hypothesis aes_block_length : forall key block,
  length key = 16 -> length block = 16 ->
  length (aes_encrypt_block key block) = 16.
Hypothesis aes_decrypt_encrypt : forall key block,
  length key = 16 -> length block = 16 ->
  aes_decrypt_block key (aes_encrypt_block key block) = block.
Hypothesis hmac_length : forall key msg, length (hmac_sha256 key msg) = 32.

Variable CIPHER : Fernet.
Hypothesis CIPHER_ok : Fernet_ok CIPHER.

Local Abbreviation encrypt_ := (encrypt aes_encrypt_block hmac_sha256 CIPHER).
Local Abbreviation decrypt_ := (decrypt aes_decrypt_block hmac_sha256 CIPHER).
Local Abbreviation signed_parts_ :=
  (signed_parts aes_encrypt_block hmac_sha256 CIPHER).

Lemma encrypt_sealed (env : entropy) (p sealed : bytes) :
  entropy_ok env -> encrypt_ env p = Ok sealed ->
  sealed = urlsafe_b64encode (signed_parts_ env p).
Proof.
  intros Henv H. rewrite (encrypt_signed_parts _ _ CIPHER_ok p Henv) in H.
  congruence.
Qed.

Lemma decrypt_sealed (env : entropy) (p : bytes) :
  entropy_ok env ->
  decrypt_ (urlsafe_b64encode (signed_parts_ env p)) = Ok p.
Proof. intros Henv. eapply decrypt_signed_parts; eassumption. Qed.

Lemma signed_parts_length' (env : entropy) (p : bytes) :
  entropy_ok env ->
  length (signed_parts_ env p) = 57 + 16 * (length p / 16 + 1).
Proof. intros Henv. eapply signed_parts_length; eassumption. Qed.

Lemma encrypt_length' (env : entropy) (p sealed : bytes) :
  entropy_ok env -> encrypt_ env p = Ok sealed ->
  length sealed = sealed_length (length p).
Proof. intros Henv H. eapply encrypt_length; eassumption. Qed.

(** X2.  [decrypt] returns a plaintext or raises [InvalidToken], nothing
    else: no datagram makes it raise [ValueError] or any other
    exception. *)
Theorem decrypt_raises_only_InvalidToken (data : bytes) :
  (exists p, decrypt aes_decrypt_block hmac_sha256 CIPHER data = Ok p)
  \/ decrypt aes_decrypt_block hmac_sha256 CIPHER data = Raise InvalidToken.
Proof.
  destruct (decrypt_ data) as [p|e] eqn:E.
  - left. now exists p.
  - right. f_equal. eapply decrypt_Raise_inv; eassumption.
Qed.

(** X3.  A datagram shorter than 98 bytes, the empty one included, is
    never accepted: [decrypt] raises [InvalidToken] on it. *)
Theorem short_datagram_rejected (data : bytes) :
  length data < 98 ->
  decrypt aes_decrypt_block hmac_sha256 CIPHER data = Raise InvalidToken.
Proof.
  intros Hlen. destruct (decrypt_ data) as [p|e] eqn:E.
  - exfalso. eapply decrypt_short_datagram; eassumption.
  - f_equal. eapply decrypt_Raise_inv; eassumption.
Qed.

(** From [encrypt ... = Ok sealed], what [sealed] is. *)
Ltac seal_eq :=
  match goal with
  | Henv : entropy_ok ?env, H : encrypt _ _ _ ?env ?p = Ok ?sealed |- _ =>
      let Es := fresh "Es" in
      assert (Es : sealed = urlsafe_b64encode (signed_parts_ env p))
        by (eapply encrypt_sealed; eassumption)
  end.

(** X4.  Bytes outside the base64 alphabet (line breaks, spaces, NUL,
    anything above 0x7f, ...) are skipped: a sealed packet with any such
    bytes inserted at any place still decrypts to its plaintext. *)
Theorem sealed_with_skipped_bytes_decrypts
        (env : entropy) (p sealed junk : bytes) (n : nat) :
  entropy_ok env ->
  encrypt aes_encrypt_block hmac_sha256 CIPHER env p = Ok sealed ->
  forallb outside_alphabet junk = true ->
  decrypt aes_decrypt_block hmac_sha256 CIPHER
    (firstn n sealed ++ junk ++ skipn n sealed) = Ok p.
Proof.
  intros Henv Hseal Hjunk. seal_eq.
  rewrite <- (decrypt_sealed p Henv).
  apply decrypt_decode_eq.
  rewrite urlsafe_b64decode_skip, firstn_skipn by exact Hjunk.
  now rewrite Es.
Qed.

(** X5.  When the plaintext fills a number of whole blocks that is not
    2, 5, 8, ... the sealed text ends in padding, and [decrypt] reads
    nothing after it: the sealed packet followed by any bytes at all
    still decrypts to its plaintext. *)
Theorem sealed_with_trailing_bytes_decrypts
        (env : entropy) (p sealed junk : bytes) :
  entropy_ok env ->
  (length p / 16 + 1) mod 3 <> 0 ->
  encrypt aes_encrypt_block hmac_sha256 CIPHER env p = Ok sealed ->
  decrypt aes_decrypt_block hmac_sha256 CIPHER (sealed ++ junk) = Ok p.
Proof.
  intros Henv Hmod Hseal. seal_eq.
  rewrite <- (decrypt_sealed p Henv).
  apply decrypt_decode_eq.
  rewrite Es, urlsafe_b64decode_encode.
  apply urlsafe_b64decode_trailing.
  rewrite (signed_parts_length' p Henv).
  replace (57 + 16 * (length p / 16 + 1))
    with (length p / 16 + 1 + (19 + 5 * (length p / 16 + 1)) * 3) by lia.
  now rewrite Nat.Div0.mod_add.
Qed.

(** X6.  The time of sealing and the IV travel in clear: without any key,
    [_get_unverified_token_data] reads back from a sealed packet the
    clock value [encrypt] used, and bytes 9 to 24 of the decoded token
    are the IV. *)
Theorem sealed_shows_time_and_iv (env : entropy) (p sealed : bytes) :
  entropy_ok env ->
  encrypt aes_encrypt_block hmac_sha256 CIPHER env p = Ok sealed ->
  exists data,
    urlsafe_b64decode sealed = Ok data
    /\ _get_unverified_token_data sealed = Ok (time_time env, data)
    /\ slice 9 25 data = urandom16 env.
Proof.
  intros Henv Hseal. seal_eq. rewrite Es.
  exists (signed_parts_ env p).
  rewrite urlsafe_b64decode_encode. split; [reflexivity|].
  unfold _get_unverified_token_data.
  rewrite urlsafe_b64decode_encode. cbn [except_raise bind].
  pose proof (signed_parts_length' p Henv) as Hlen.
  destruct Henv as [Ht Hiv].
  unfold signed_parts, basic_parts in *. cbn [app] in *.
  set (ts := to_bytes_big 8 (time_time env)) in *.
  set (iv := urandom16 env) in *.
  set (ct := cbc_encrypt_blocks _ _ _ _ _) in *.
  set (tag := hmac_sha256 _ _) in *.
  assert (Hts : length ts = 8) by apply to_bytes_big_length.
  assert (Htag : length tag = 32) by apply hmac_length.
  change (Byte.eqb x80 x80) with true. cbn [negb].
  replace (length (x80 :: (ts ++ iv ++ ct) ++ tag) <? 9) with false
    by (symmetry; apply Nat.ltb_ge; lia).
  split.
  - do 2 f_equal. unfold slice. cbn [skipn Nat.sub].
    rewrite <- app_assoc, (firstn_exact_app _ _ Hts).
    unfold ts. rewrite from_to_bytes_big.
    apply N.mod_small. exact Ht.
  - destruct (@token_fields ts iv ct tag Hts Hiv Htag) as (_ & _ & H & _).
    exact H.
Qed.

(** X7.  What pump A puts on the wire is text: every byte of a sealed
    packet is one of the 65 characters of URL-safe base64, and for a
    packet of at most 4096 bytes the sealed packet has between 100 and
    5560 bytes, a multiple of four. *)
Theorem sealed_is_urlsafe_text (env : entropy) (p sealed : bytes) :
  entropy_ok env ->
  length p <= bufsize ->
  encrypt aes_encrypt_block hmac_sha256 CIPHER env p = Ok sealed ->
  forallb urlsafe_char sealed = true
  /\ 100 <= length sealed <= 4 * 1390
  /\ length sealed mod 4 = 0.
Proof.
  intros Henv Hp Hseal. seal_eq.
  rewrite (encrypt_length' _ Henv Hseal).
  rewrite Es.
  split; [apply urlsafe_b64encode_chars|].
  now apply sealed_length_range.
Qed.

End CodecExtras.


(** * Further properties of the relay *)

Section RelayExtras.

Variable aes_encrypt_block : bytes -> bytes -> bytes.
Variable aes_decrypt_block : bytes -> bytes -> bytes.
Variable hmac_sha256 : bytes -> bytes -> bytes.
Variable CIPHER : Fernet.

Local Abbreviation read_tap_ := (read_tap aes_encrypt_block hmac_sha256 CIPHER).
Local Abbreviation read_socket_ := (read_socket aes_decrypt_block hmac_sha256 CIPHER).
Local Abbreviation step_ :=
  (step aes_encrypt_block aes_decrypt_block hmac_sha256 CIPHER).
Local Abbreviation run_ :=
  (run aes_encrypt_block aes_decrypt_block hmac_sha256 CIPHER).
Local Abbreviation encrypt_ := (encrypt aes_encrypt_block hmac_sha256 CIPHER).
Local Abbreviation decrypt_ := (decrypt aes_decrypt_block hmac_sha256 CIPHER).

(** *** What pump B writes is short *)

Lemma read_socket_written_bound (t t' : read_socket_thread) (ev : sock_event) :
  read_socket_ t ev = Some t' ->
  Forall (fun p => length p <= 3007) (written t) ->
  Forall (fun p => length p <= 3007) (written t').
Proof.
  unfold read_socket. intros H Hinv.
  destruct (sock_pc t) as [|dec0|e0], ev as [[[data addr]|e]|[n|e]];
    try discriminate; cbn [fst] in H.
  - destruct (length data <=? bufsize) eqn:Hlen; [|discriminate].
    apply Nat.leb_le in Hlen.
    destruct (decrypt _ _ _ data) as [decrypted|e] eqn:E;
      injection H as <-; cbn [written]; [|exact Hinv].
    apply Forall_app. split; [exact Hinv|].
    constructor; [|constructor].
    eapply decrypt_length_bound; eassumption.
  - injection H as <-. exact Hinv.
  - injection H as <-. exact Hinv.
  - injection H as <-. exact Hinv.
Qed.

Lemma run_written_bound (r r' : relay) (evs : list event) :
  run_ r evs = Some r' ->
  Forall (fun p => length p <= 3007) (written (pump_b r)) ->
  Forall (fun p => length p <= 3007) (written (pump_b r')).
Proof.
  revert r. induction evs as [|ev evs IH]; intros r H Hinv; cbn [run] in H.
  - congruence.
  - destruct (step_ r ev) as [r1|] eqn:E; [|discriminate].
    eapply IH; [eassumption|].
    destruct ev as [ev|ev]; cbn [step] in E.
    + destruct (read_tap_ (pump_a r) ev); [|discriminate].
      injection E as <-. exact Hinv.
    + destruct (read_socket_ (pump_b r) ev) as [b|] eqn:Eb; [|discriminate].
      injection E as <-. cbn [pump_b].
      eapply read_socket_written_bound; eassumption.
Qed.

(** X8.  In every reachable state of the relay, each payload that pump B
    has handed to [WriteFile] has at most 3007 bytes: a datagram that fits
    [recvfrom(4096)] cannot carry more. *)
Theorem read_socket_writes_at_most_3007 (r : relay) :
  reachable aes_encrypt_block aes_decrypt_block hmac_sha256 CIPHER r ->
  Forall (fun p => length p <= 3007) (written (pump_b r)).
Proof.
  intros [evs Hrun]. eapply run_written_bound; [exact Hrun|].
  constructor.
Qed.

(** *** Replays *)

(** X10.  Pump B keeps no record of what it has seen and [decrypt] is
    given no TTL: a datagram that decrypts is written to the device again
    each time it arrives, [n] arrivals giving [n] writes of the same
    plaintext. *)
Theorem replayed_datagram_written_again
        (n : nat) (r : relay) (data p : bytes) (addr : address) :
  sock_pc (pump_b r) = in_recvfrom ->
  length data <= bufsize ->
  decrypt aes_decrypt_block hmac_sha256 CIPHER data = Ok p ->
  exists r',
    run aes_encrypt_block aes_decrypt_block hmac_sha256 CIPHER r
      (replayed data addr n) = Some r'
    /\ written (pump_b r') = written (pump_b r) ++ repeat p n
    /\ sock_pc (pump_b r') = in_recvfrom
    /\ pump_a r' = pump_a r.
Proof.
  intros Hpc Hlen Hdec. revert r Hpc.
  induction n as [|n IH]; intros r Hpc.
  - exists r. cbn. now rewrite app_nil_r.
  - cbn [replayed run step]. unfold read_socket at 1.
    rewrite Hpc. cbn [fst].
    pose proof Hlen as Hlen'. apply Nat.leb_le in Hlen'. rewrite Hlen', Hdec.
    cbn [pump_b]. unfold read_socket at 1. cbn [sock_pc].
    match goal with
    | |- context [run _ _ _ _ ?x _] => destruct (IH x eq_refl) as (r' & Hr & Hw & Hp & Ha)
    end.
    exists r'. split; [exact Hr|].
    rewrite Hw, Ha. cbn [pump_a pump_b written repeat].
    rewrite <- app_assoc. repeat split; assumption.
Qed.

End RelayExtras.

Section Loopback.

Variable aes_encrypt_block : bytes -> bytes -> bytes.
Variable aes_decrypt_block : bytes -> bytes -> bytes.
Variable hmac_sha256 : bytes -> bytes -> bytes.

Hypothesis aes_block_length : forall key block,
  length key = 16 -> length block = 16 ->
  length (aes_encrypt_block key block) = 16.
Hypothesis aes_decrypt_encrypt : forall key block,
  length key = 16 -> length block = 16 ->
  aes_decrypt_block key (aes_encrypt_block key block) = block.
Hypothesis hmac_length : forall key msg, length (hmac_sha256 key msg) = 32.

Variable CIPHER : Fernet.
Hypothesis CIPHER_ok : Fernet_ok CIPHER.

(** X11.  End to end: a packet of at most 3007 bytes that pump A reads
    from the device goes onto the wire sealed, addressed to the configured
    proxy, and when that datagram comes back in to pump B (whoever sends
    it) the packet itself is handed to [WriteFile]. *)
Theorem tunnel_loopback
        (r : relay) (p : bytes) (env : entropy) (hr n : N) (addr : address) :
  tap_pc (pump_a r) = in_ReadFile ->
  sock_pc (pump_b r) = in_recvfrom ->
  entropy_ok env ->
  length p <= 3007 ->
  exists sealed r',
    encrypt aes_encrypt_block hmac_sha256 CIPHER env p = Ok sealed
    /\ run aes_encrypt_block aes_decrypt_block hmac_sha256 CIPHER r
         [ to_read_tap (ReadFile_returns (Ok (hr, p)) env);
           to_read_tap (sendto_returns (Ok n));
           to_read_socket (recvfrom_returns (Ok (sealed, addr))) ]
       = Some r'
    /\ sent (pump_a r') = sent (pump_a r) ++ [(sealed, (PROXY_IP, PROXY_PORT))]
    /\ written (pump_b r') = written (pump_b r) ++ [p]
    /\ tap_pc (pump_a r') = in_ReadFile
    /\ sock_pc (pump_b r') = in_WriteFile p.
Proof.
  intros Ha Hb Henv Hp.
  remember (urlsafe_b64encode
              (signed_parts aes_encrypt_block hmac_sha256 CIPHER env p))
    as sealed eqn:Es.
  assert (Henc : encrypt aes_encrypt_block hmac_sha256 CIPHER env p = Ok sealed)
    by (subst sealed; eapply encrypt_signed_parts; eassumption).
  assert (Hdec : decrypt aes_decrypt_block hmac_sha256 CIPHER sealed = Ok p)
    by (subst sealed; eapply decrypt_signed_parts; eassumption).
  assert (Hlen : length sealed <= bufsize).
  { assert (E : length sealed = sealed_length (length p))
      by (eapply encrypt_length; eassumption).
    pose proof (sealed_length_over_bufsize (length p)). lia. }
  assert (Hlenp : length p <= bufsize) by (unfold bufsize; lia).
  apply Nat.leb_le in Hlen, Hlenp. clear Es.
  exists sealed.
  exists {| pump_a :=
              {| tap_pc := in_ReadFile;
                 tap_packets := tap_packets (pump_a r) ++ [(p, env)];
                 sent := sent (pump_a r) ++ [(sealed, (PROXY_IP, PROXY_PORT))] |};
            pump_b :=
              {| sock_pc := in_WriteFile p;
                 datagrams := datagrams (pump_b r) ++ [(sealed, addr)];
                 written := written (pump_b r) ++ [p] |} |}.
  split; [exact Henc|]. split; [|repeat split].
  cbn [run step]. unfold read_tap at 1. rewrite Ha. cbn [snd].
  rewrite Hlenp, Henc. cbn [pump_a pump_b].
  unfold read_tap at 1. cbn [tap_pc tap_packets sent pump_a pump_b].
  unfold read_socket at 1. rewrite Hb. cbn [fst].
  rewrite Hlen, Hdec. reflexivity.
Qed.

End Loopback.


(** * The HTTP forwarder *)

Module ProxyFacts.
Import Proxy.

Section HandlerFacts.

Variable path : string.
Variable self_headers : list (string * string).
Variable raises : nat -> option Exception.

Local Abbreviation url := ("http://" ++ ZERO_RATED_DOMAIN ++ path)%string.

Lemma attempt_app (cs1 cs2 : list call) (made : list call) :
  attempt raises (cs1 ++ cs2) made =
  seq_ (attempt raises cs1) (fun _ => attempt raises cs2) made.
Proof.
  revert made. induction cs1 as [|c cs1 IH]; intros made.
  - reflexivity.
  - cbn [app attempt]. unfold seq_.
    destruct (perform raises c made) as [made' [[]|e]];
      [rewrite IH; reflexivity | reflexivity].
Qed.

Lemma for_send_header_attempt (items : list (string * string)) (made : list call) :
  for_send_header raises items made =
  attempt raises (map (fun kv => send_header (fst kv) (snd kv)) items) made.
Proof.
  revert made. induction items as [|[key value] items IH]; intros made.
  - reflexivity.
  - cbn [for_send_header map attempt fst snd]. unfold seq_.
    destruct (perform raises (send_header key value) made) as [made' [[]|e]];
      [apply IH | reflexivity].
Qed.

(** The body of the [try], once the upstream answer is there, is the
    calls of the forwarded response made in order. *)
Lemma try_body_attempt (response : Response) (made : list call) :
  seq_ (perform raises (send_response (status_code response))) (fun _ =>
  seq_ (for_send_header raises (headers response)) (fun _ =>
  seq_ (perform raises end_headers) (fun _ =>
  perform raises (wfile_write (content response))))) made
  = attempt raises (forwarded response) made.
Proof.
  unfold forwarded. cbn [attempt]. unfold seq_.
  destruct (perform raises (send_response _) made) as [made1 [[]|e]];
    [|reflexivity].
  rewrite attempt_app, for_send_header_attempt. unfold seq_.
  destruct (attempt raises _ made1) as [made2 [[]|e]]; [|reflexivity].
  cbn [attempt]. unfold seq_.
  destruct (perform raises end_headers made2) as [made3 [[]|e]];
    [|reflexivity].
  destruct (perform raises (wfile_write _) made3) as [made4 [[]|e]];
    reflexivity.
Qed.

(** Calls that do not raise are all made. *)
Lemma attempt_all (calls made : list call) :
  (forall i, length made <= i < length made + length calls -> raises i = None) ->
  attempt raises calls made = (made ++ calls, inl tt).
Proof.
  revert made. induction calls as [|c calls IH]; intros made H.
  - cbn. now rewrite app_nil_r.
  - cbn [attempt]. unfold seq_, perform.
    rewrite (H (length made)) by (cbn [length]; lia).
    rewrite IH.
    + now rewrite <- app_assoc.
    + intros i Hi. apply H. rewrite length_app in Hi. cbn [length] in *. lia.
Qed.

(** The first call that raises ends the attempt. *)
Lemma attempt_raise (calls made : list call) (k : nat) (e : Exception) :
  k < length calls ->
  (forall i, length made <= i < length made + k -> raises i = None) ->
  raises (length made + k) = Some e ->
  attempt raises calls made = (made ++ firstn (S k) calls, inr e).
Proof.
  revert made k. induction calls as [|c calls IH]; intros made k Hk Hnone He.
  - cbn in Hk. lia.
  - cbn [attempt]. unfold seq_, perform.
    destruct k as [|k].
    + rewrite Nat.add_0_r in He. rewrite He. cbn [firstn]. reflexivity.
    + rewrite (Hnone (length made)) by lia.
      rewrite (IH (made ++ [c]) k).
      * cbn [firstn]. now rewrite <- app_assoc.
      * cbn [length] in Hk. lia.
      * intros i Hi. apply Hnone. rewrite length_app in Hi. cbn [length] in Hi. lia.
      * rewrite length_app. cbn [length].
        now replace (length made + 1 + k) with (length made + S k) by lia.
Qed.

(** Whatever raises, an attempt makes some first calls of its list, and
    all of them when nothing raised. *)
Lemma attempt_prefix (calls made : list call) :
  exists k,
    k <= length calls
    /\ fst (attempt raises calls made) = made ++ firstn k calls
    /\ (snd (attempt raises calls made) = inl tt /\ k = length calls
        \/ exists e, snd (attempt raises calls made) = inr e).
Proof.
  revert made. induction calls as [|c calls IH]; intros made.
  - exists 0. cbn. rewrite app_nil_r. repeat split; auto.
  - cbn [attempt]. unfold seq_, perform.
    destruct (raises (length made)) as [e|].
    + exists 1. cbn [fst snd firstn length]. split; [lia|].
      split; [reflexivity|]. right. now exists e.
    + destruct (IH (made ++ [c])) as (k & Hk & Hf & Hs).
      exists (S k). cbn [length firstn]. split; [lia|].
      rewrite Hf, <- app_assoc. split; [reflexivity|].
      destruct Hs as [[Hs ->]|Hs]; [left; now split | now right].
Qed.

Lemma do_GET_attempt (response : Response) :
  do_GET path self_headers (inl response) raises [] =
  match attempt raises (forwarded response) [requests_get url self_headers] with
  | (made, inl a) => (made, inl a)
  | (made, inr e) => perform raises (send_error 500 (str e)) made
  end.
Proof.
  unfold do_GET, try_except. unfold seq_ at 1. unfold get at 1.
  cbn [app]. now rewrite try_body_attempt.
Qed.

End HandlerFacts.

Lemma forwarded_calls (response : Response) :
  forallb (fun c => negb (is_send_error c) && negb (is_requests_get c))
          (forwarded response) = true.
Proof.
  unfold forwarded. cbn [forallb is_send_error is_requests_get negb andb].
  rewrite forallb_app. cbn [forallb is_send_error is_requests_get negb andb].
  rewrite andb_true_r. induction (headers response) as [|kv l IH];
    [reflexivity | exact IH].
Qed.

Lemma forallb_firstn {A} (f : A -> bool) (k : nat) (l : list A) :
  forallb f l = true -> forallb f (firstn k l) = true.
Proof.
  revert k. induction l as [|x l IH]; intros [|k] H; cbn in *; auto.
  apply andb_true_iff in H. destruct H as [-> H]. now apply IH.
Qed.

(** X12.  When the upstream request succeeds and no call on the handler
    raises, [do_GET] makes one upstream request, to
    [http://free.facebook.com] followed by the path as the client sent
    it and with the client's own headers, then relays the upstream status,
    every upstream header in upstream order, the end of the headers and
    the body, and returns without calling [send_error]. *)
Theorem do_GET_forwards_response
        (path : string) (self_headers : list (string * string))
        (response : Response) (raises : nat -> option Exception) :
  (forall i, 1 <= i <= length (forwarded response) -> raises i = None) ->
  do_GET path self_headers (inl response) raises []
  = (requests_get ("http://" ++ ZERO_RATED_DOMAIN ++ path)%string self_headers
       :: forwarded response,
     inl tt).
Proof.
  intros H. unfold do_GET, try_except. unfold seq_ at 1. unfold get at 1.
  cbn [app]. rewrite try_body_attempt, attempt_all.
  - reflexivity.
  - intros i Hi. apply H. cbn [length] in Hi. lia.
Qed.

(** X13.  Failures.  When the upstream request raises [e], [do_GET] calls
    [send_error(500, str(e))] and nothing else.  When it succeeds and the
    call number [k] of the response (0 for [send_response]) is the first
    to raise, [do_GET] has by then made the first [k + 1] calls of the
    response, and calls [send_error(500, str(e))] after them: for
    [k > 0] an error response is started on a connection on which a
    response has already been started. *)
Theorem do_GET_failure
        (path : string) (self_headers : list (string * string))
        (raises : nat -> option Exception) :
  (forall e,
     fst (do_GET path self_headers (inr e) raises [])
     = [requests_get ("http://" ++ ZERO_RATED_DOMAIN ++ path)%string self_headers;
        send_error 500 (str e)])
  /\ (forall response k e,
        k < length (forwarded response) ->
        (forall i, 1 <= i <= k -> raises i = None) ->
        raises (S k) = Some e ->
        fst (do_GET path self_headers (inl response) raises [])
        = requests_get ("http://" ++ ZERO_RATED_DOMAIN ++ path)%string self_headers
            :: firstn (S k) (forwarded response)
            ++ [send_error 500 (str e)]).
Proof.
  split.
  - intros e. reflexivity.
  - intros response k e Hk Hnone He.
    unfold do_GET, try_except. unfold seq_ at 1. unfold get at 1.
    cbn [app]. rewrite try_body_attempt.
    erewrite attempt_raise; [reflexivity | exact Hk | | exact He].
    intros i Hi. apply Hnone. cbn [length] in Hi. lia.
Qed.

(** X14.  Whatever the upstream request and the handler calls do,
    [do_GET] makes exactly one upstream request, as its first call.  After
    it come the first [k] calls of the forwarded response, in their order
    (status, headers, end of headers, body), for some [k]; none at all
    when the upstream request raised.  None of them is a [send_error] or
    another upstream request.  Then either nothing more follows, all the
    calls of the response were made and [do_GET] returns, or exactly one
    [send_error] with status 500 follows as the last call; when the
    upstream request raised [e], that call is [send_error(500, str(e))]. *)
Theorem do_GET_answers_once
        (path : string) (self_headers : list (string * string))
        (upstream : Response + Exception) (raises : nat -> option Exception) :
  exists made tail,
    fst (do_GET path self_headers upstream raises [])
    = requests_get ("http://" ++ ZERO_RATED_DOMAIN ++ path)%string self_headers
        :: made ++ tail
    /\ match upstream with
       | inl response =>
           exists k,
             k <= length (forwarded response)
             /\ made = firstn k (forwarded response)
       | inr e => made = [] /\ tail = [send_error 500 (str e)]
       end
    /\ forallb (fun c => negb (is_send_error c) && negb (is_requests_get c)) made
       = true
    /\ ((tail = []
         /\ snd (do_GET path self_headers upstream raises []) = inl tt
         /\ exists response,
              upstream = inl response /\ made = forwarded response)
        \/ exists e, tail = [send_error 500 (str e)]).
Proof.
  destruct upstream as [response|e].
  - rewrite do_GET_attempt.
    destruct (attempt_prefix raises (forwarded response)
                [requests_get ("http://" ++ ZERO_RATED_DOMAIN ++ path)%string
                   self_headers])
      as (k & Hk & Hf & Hs).
    destruct (attempt raises (forwarded response) _) as [made' res].
    cbn [fst snd] in Hf, Hs. subst made'. cbn [app].
    exists (firstn k (forwarded response)).
    destruct Hs as [[-> ->]|[e ->]].
    + exists []. rewrite firstn_all, app_nil_r. cbn [fst snd].
      split; [reflexivity|].
      split; [exists (length (forwarded response));
              split; [lia | now rewrite firstn_all]|].
      split; [apply forwarded_calls|].
      left. split; [reflexivity|]. split; [reflexivity|].
      now exists response.
    + exists [send_error 500 (str e)]. unfold perform. cbn [fst].
      split; [reflexivity|].
      split; [exists k; split; [exact Hk | reflexivity]|].
      split; [apply forallb_firstn, forwarded_calls|].
      right. now exists e.
  - exists [], [send_error 500 (str e)]. cbn.
    split; [reflexivity|]. split; [now split|].
    split; [reflexivity|]. right. now exists e.
Qed.

End ProxyFacts.


(** * The further properties on sample inputs *)

Ltac with_samples :=
  first [ exact xor_block_cipher_length | exact xor_block_cipher_inverse
        | exact fold_mac_length | exact demo_cipher_ok | exact demo_env_ok
        | exact demo_sealed_encrypt | exact demo_relay_reachable
        | reflexivity | (cbn; lia) ].

Lemma decrypt_raises_only_InvalidToken_witness :
  (exists p, decrypt xor_block_cipher fold_mac demo_cipher forged = Ok p)
  \/ decrypt xor_block_cipher fold_mac demo_cipher forged = Raise InvalidToken.
Proof. apply decrypt_raises_only_InvalidToken; with_samples. Defined.

Lemma short_datagram_rejected_witness :
  decrypt xor_block_cipher fold_mac demo_cipher forged = Raise InvalidToken.
Proof. apply short_datagram_rejected; with_samples. Defined.

Lemma sealed_with_skipped_bytes_decrypts_witness :
  decrypt xor_block_cipher fold_mac demo_cipher
    (firstn 50 demo_sealed ++ demo_junk ++ skipn 50 demo_sealed)
  = Ok demo_packet.
Proof. eapply sealed_with_skipped_bytes_decrypts; with_samples. Defined.

Lemma sealed_with_trailing_bytes_decrypts_witness :
  decrypt xor_block_cipher fold_mac demo_cipher (demo_sealed ++ forged)
  = Ok demo_packet.
Proof.
  eapply sealed_with_trailing_bytes_decrypts;
    first [ discriminate | with_samples ].
Defined.

Lemma sealed_shows_time_and_iv_witness :
  exists data,
    urlsafe_b64decode demo_sealed = Ok data
    /\ _get_unverified_token_data demo_sealed = Ok (time_time demo_env, data)
    /\ slice 9 25 data = urandom16 demo_env.
Proof. eapply sealed_shows_time_and_iv; with_samples. Defined.

Lemma sealed_is_urlsafe_text_witness :
  forallb urlsafe_char demo_sealed = true
  /\ 100 <= length demo_sealed <= 4 * 1390
  /\ length demo_sealed mod 4 = 0.
Proof.
  eapply (@sealed_is_urlsafe_text xor_block_cipher fold_mac
            xor_block_cipher_length fold_mac_length demo_cipher demo_cipher_ok
            demo_env demo_packet);
    first [ exact demo_env_ok | exact demo_sealed_encrypt
          | (unfold bufsize, demo_packet; simpl; lia) ].
Defined.

Lemma read_socket_writes_at_most_3007_witness :
  Forall (fun p => length p <= 3007) (written (pump_b demo_relay)).
Proof. eapply read_socket_writes_at_most_3007; with_samples. Defined.

Lemma demo_sealed_decrypt :
  decrypt xor_block_cipher fold_mac demo_cipher demo_sealed = Ok demo_packet.
Proof. vm_compute. reflexivity. Qed.

Lemma demo_sealed_length : length demo_sealed <= bufsize.
Proof. unfold bufsize. vm_compute. lia. Qed.

Lemma replayed_datagram_written_again_witness :
  exists r',
    run xor_block_cipher xor_block_cipher fold_mac demo_cipher started
      (replayed demo_sealed demo_addr 3) = Some r'
    /\ written (pump_b r') = written (pump_b started) ++ repeat demo_packet 3
    /\ sock_pc (pump_b r') = in_recvfrom
    /\ pump_a r' = pump_a started.
Proof.
  apply replayed_datagram_written_again;
    first [ exact demo_sealed_decrypt | exact demo_sealed_length | reflexivity ].
Defined.

Lemma tunnel_loopback_witness :
  exists sealed r',
    encrypt xor_block_cipher fold_mac demo_cipher demo_env demo_packet = Ok sealed
    /\ run xor_block_cipher xor_block_cipher fold_mac demo_cipher started
         [ to_read_tap (ReadFile_returns (Ok (0%N, demo_packet)) demo_env);
           to_read_tap (sendto_returns (Ok 100%N));
           to_read_socket (recvfrom_returns (Ok (sealed, demo_addr))) ]
       = Some r'
    /\ sent (pump_a r') = sent (pump_a started) ++ [(sealed, (PROXY_IP, PROXY_PORT))]
    /\ written (pump_b r') = written (pump_b started) ++ [demo_packet]
    /\ tap_pc (pump_a r') = in_ReadFile
    /\ sock_pc (pump_b r') = in_WriteFile demo_packet.
Proof.
  apply tunnel_loopback;
    first [ exact xor_block_cipher_length | exact xor_block_cipher_inverse
          | exact fold_mac_length | exact demo_cipher_ok | exact demo_env_ok
          | reflexivity | (unfold demo_packet; simpl; lia) ].
Defined.

Lemma do_GET_forwards_response_witness :
  Proxy.do_GET "/index.html" [("Host", "proxy.example:8080")]%string
    (inl Proxy.demo_response) Proxy.nothing_raises []
  = (Proxy.requests_get
       ("http://" ++ Proxy.ZERO_RATED_DOMAIN ++ "/index.html")%string
       [("Host", "proxy.example:8080")]%string
       :: Proxy.forwarded Proxy.demo_response,
     inl tt).
Proof. apply ProxyFacts.do_GET_forwards_response. reflexivity. Defined.

Lemma do_GET_failure_witness :
  fst (Proxy.do_GET "/index.html" [("Host", "proxy.example:8080")]%string
         (inl Proxy.demo_response) Proxy.broken_pipe [])
  = Proxy.requests_get
      ("http://" ++ Proxy.ZERO_RATED_DOMAIN ++ "/index.html")%string
      [("Host", "proxy.example:8080")]%string
      :: firstn 4 (Proxy.forwarded Proxy.demo_response)
      ++ [Proxy.send_error 500 "[Errno 32] Broken pipe"].
Proof.
  apply (proj2 (ProxyFacts.do_GET_failure "/index.html"
                  [("Host", "proxy.example:8080")]%string Proxy.broken_pipe)
           Proxy.demo_response 3 {| Proxy.str := "[Errno 32] Broken pipe" |}).
  - cbn. lia.
  - intros i Hi. unfold Proxy.broken_pipe.
    replace (i =? 4) with false by (symmetry; apply Nat.eqb_neq; lia).
    reflexivity.
  - reflexivity.
Defined.
